(** * CineGen AI: the movie creator component and the generation service

    A shallow embedding of [components/MovieCreator.tsx] (the React
    component that drives generation and playback) and of
    [services/geminiService.ts] (script, video and speech requests),
    together with the properties of the specification that concern them.

    Conventions of the embedding.
    - A JavaScript string is the list of its UTF-16 code units.
    - A rejected promise or a thrown exception carries a [JsError].
    - The component's [useState] cells and [useRef] cells are the fields of
      [Component]; what lives in the browser (audio nodes, the shared audio
      context, the log of calls that leave the component) is [World].
    - Synchronous handlers are computations in the monad [M], which threads
      the whole system state and may throw.  An [async] function is cut at
      its [await]s into phases; the answers of the backend are an oracle
      [Backend]. *)

From Stdlib Require Import NArith List String Ascii Bool Lia DecimalString.
From stdpp Require Import base option list gmap.
Import ListNotations.

(** ** JavaScript strings *)

Module JsString.

(** A string is a sequence of UTF-16 code units. *)
Definition jsstring := list N.

(** The code units of an ASCII literal of the source. *)
Definition lit (s : string) : jsstring :=
  map N_of_ascii (list_ascii_of_string s).

(** A string is falsy exactly when it is empty. *)
Definition truthy (s : jsstring) : bool :=
  match s with [] => false | _ :: _ => true end.

(** [a || b] on strings. *)
Definition or_else (a b : jsstring) : jsstring :=
  if truthy a then a else b.

(** [WhiteSpace] and [LineTerminator] of ECMAScript: the code units that
    [String.prototype.trim] strips. *)
Definition is_whitespace (c : N) : bool :=
  ((9 <=? c) && (c <=? 13)         (* TAB, LF, VT, FF, CR *)
   || (c =? 32)                    (* SPACE *)
   || (c =? 160)                   (* NO-BREAK SPACE *)
   || (c =? 5760)                  (* OGHAM SPACE MARK *)
   || (8192 <=? c) && (c <=? 8202) (* EN QUAD .. HAIR SPACE *)
   || (c =? 8232) || (c =? 8233)   (* LINE / PARAGRAPH SEPARATOR *)
   || (c =? 8239)                  (* NARROW NO-BREAK SPACE *)
   || (c =? 8287)                  (* MEDIUM MATHEMATICAL SPACE *)
   || (c =? 12288)                 (* IDEOGRAPHIC SPACE *)
   || (c =? 65279))%N.             (* ZERO WIDTH NO-BREAK SPACE *)

Fixpoint trimStart (s : jsstring) : jsstring :=
  match s with
  | [] => []
  | c :: s' => if is_whitespace c then trimStart s' else s
  end.

Definition trimEnd (s : jsstring) : jsstring :=
  rev (trimStart (rev s)).

(** [s.trim()] *)
Definition trim (s : jsstring) : jsstring := trimEnd (trimStart s).

(** Empty or made of whitespace only. *)
Definition blank (s : jsstring) : bool := forallb is_whitespace s.

Fixpoint startsWith (s needle : jsstring) : bool :=
  match needle, s with
  | [], _ => true
  | _ :: _, [] => false
  | n :: needle', c :: s' => (c =? n)%N && startsWith s' needle'
  end.

(** [s.includes(needle)] *)
Fixpoint includes (s needle : jsstring) : bool :=
  startsWith s needle
  || match s with
     | [] => false
     | _ :: s' => includes s' needle
     end.

(** [n.toString()] for a non-negative integer. *)
Definition toString (n : N) : jsstring :=
  lit (NilZero.string_of_uint (N.to_uint n)).

End JsString.
Export JsString.

(** ** Data model ([types.ts]) *)

Inductive AspectRatio := Landscape | Portrait.

Inductive VoiceName := Kore | Puck | Charon | Fenrir | Zephyr.

(** The [step] of a [GenerationStatus]: one of the string literals
    ['idle' | 'script' | 'video' | 'audio' | 'complete' | 'error']. *)
Inductive Step :=
  step_idle | step_script | step_video | step_audio | step_complete | step_error.

Module GenerationStatus.
Record t := mk {
  step : Step;
  message : option jsstring;
  error : option jsstring
}.
End GenerationStatus.

(** A decoded [AudioBuffer]; its samples play no part here. *)
Record AudioBuffer := {
  numberOfChannels : N;
  sampleRate : N;
  frames : N
}.

Module MovieData.
Record t := mk {
  id : jsstring;
  script : jsstring;
  videoUrl : jsstring;
  audioBuffer : option AudioBuffer;
  aspectRatio : AspectRatio
}.
End MovieData.

#[global] Instance AspectRatio_eq_dec : EqDecision AspectRatio.
Proof. solve_decision. Defined.
#[global] Instance VoiceName_eq_dec : EqDecision VoiceName.
Proof. solve_decision. Defined.
#[global] Instance Step_eq_dec : EqDecision Step.
Proof. solve_decision. Defined.

(** ** Exceptions and promises *)

(** The [message] property of a thrown value, when it is there and
    truthy: a string, or a value that is not a string and has no
    [includes] method (a number, say).  A message that is an object with
    an [includes] of its own, such as an array, is not part of the model. *)
Inductive Message :=
| Text (m : jsstring)
| NotText.

(** What a [throw] or a rejection carries, as far as a [catch] block
    looks at it: [null] or [undefined], or a value with a [message]
    property; [None] is a [message] that is [undefined] or falsy and not
    a string (the empty string is [Some (Text [])]). *)
Inductive JsError :=
| Nullish
| Thrown (message : option Message).

(** [new Error(m)] *)
Definition Error (m : jsstring) : JsError := Thrown (Some (Text m)).

(** The error of reading a property off [null] or [undefined], or of
    calling a method that is not there.  Its message differs from engine
    to engine; nothing here reads it. *)
Definition TypeError : JsError := Error (lit "TypeError").

(** How a call ends: it returns (an awaited promise is fulfilled), it
    throws (the promise is rejected), or the promise never settles. *)
Inductive Outcome (A : Type) :=
| Ok (a : A)
| Throw (e : JsError)
| Never.
Arguments Ok {A} a.
Arguments Throw {A} e.
Arguments Never {A}.

Definition is_ok {A} (o : Outcome A) : bool :=
  match o with Ok _ => true | _ => false end.

Definition is_throw {A} (o : Outcome A) : bool :=
  match o with Throw _ => true | _ => false end.

(** Computations over a state [S] that may throw; a state change made
    before a throw stays made. *)
Definition Eff (S A : Type) : Type := S -> Outcome A * S.

Definition ret {S A} (a : A) : Eff S A := fun s => (Ok a, s).

Definition bind {S A B} (m : Eff S A) (k : A -> Eff S B) : Eff S B :=
  fun s =>
    match m s with
    | (Ok a, s') => k a s'
    | (Throw e, s') => (Throw e, s')
    | (Never, s') => (Never, s')
    end.

Definition throw {S A} (e : JsError) : Eff S A := fun s => (Throw e, s).

(** [try { m } catch (e) { h e }] *)
Definition try_catch {S A} (m : Eff S A) (h : JsError -> Eff S A) : Eff S A :=
  fun s =>
    match m s with
    | (Throw e, s') => h e s'
    | r => r
    end.

Definition gets {S A} (f : S -> A) : Eff S A := fun s => (Ok (f s), s).

Definition modify {S} (f : S -> S) : Eff S unit := fun s => (Ok tt, f s).

(** [await o]: continue with the value of a settled promise. *)
Definition await {S A} (o : Outcome A) : Eff S A := fun s => (o, s).

(** The state a computation leaves behind. *)
Definition exec {S A} (m : Eff S A) (s : S) : S := snd (m s).

Declare Scope eff_scope.
Delimit Scope eff_scope with eff.
Notation "'let*' x := m 'in' k" := (bind m (fun x => k))
  (at level 10, x name, m at level 100, k at level 200,
   format "'[v' 'let*'  x  :=  m  'in' '/' k ']'") : eff_scope.
Notation "m >> k" := (bind m (fun _ => k))
  (at level 100, k at level 200, right associativity) : eff_scope.
Open Scope eff_scope.

(** ** The browser *)

(** An [AudioBufferSourceNode] is single use: created, started once, and
    then over, because it was stopped or because its buffer has played to
    the end ([Stopped] in both cases). *)
Inductive NodeState := Unstarted | Playing | Stopped.

Inductive ContextState := Suspended | Running.

(** The calls that leave the component, in the order they happen. *)
Inductive Event :=
| RevokeObjectURL (url : jsstring)
| GenerateScript (idea : jsstring)
| GenerateVideo (idea : jsstring) (aspectRatio : AspectRatio)
| GenerateSpeech (text : jsstring) (voice : VoiceName)
| SourceStart (node : nat)
| SourceStop (node : nat).

Record World := {
  sources : gmap nat NodeState;    (* the source nodes created so far *)
  gains : gmap nat N;              (* [gain.value] of the gain nodes *)
  next_node : nat;                 (* identity of the next node *)
  next_blob : N;                   (* number of the next object URL *)
  window_audioContext : option ContextState;  (* [window._audioContext] *)
  fresh_context_state : ContextState;  (* state of a context just created *)
  rejects_double_stop : bool;      (* does [stop()] throw on a stopped node *)
  log : list Event
}.

#[global] Instance NodeState_eq_dec : EqDecision NodeState.
Proof. solve_decision. Defined.

Definition set_sources (f : gmap nat NodeState -> gmap nat NodeState) (w : World) : World :=
  {| sources := f (sources w); gains := gains w; next_node := next_node w;
     next_blob := next_blob w; window_audioContext := window_audioContext w;
     fresh_context_state := fresh_context_state w;
     rejects_double_stop := rejects_double_stop w; log := log w |}.

Definition set_gains (f : gmap nat N -> gmap nat N) (w : World) : World :=
  {| sources := sources w; gains := f (gains w); next_node := next_node w;
     next_blob := next_blob w; window_audioContext := window_audioContext w;
     fresh_context_state := fresh_context_state w;
     rejects_double_stop := rejects_double_stop w; log := log w |}.

Definition set_next_node (n : nat) (w : World) : World :=
  {| sources := sources w; gains := gains w; next_node := n;
     next_blob := next_blob w; window_audioContext := window_audioContext w;
     fresh_context_state := fresh_context_state w;
     rejects_double_stop := rejects_double_stop w; log := log w |}.

Definition set_next_blob (n : N) (w : World) : World :=
  {| sources := sources w; gains := gains w; next_node := next_node w;
     next_blob := n; window_audioContext := window_audioContext w;
     fresh_context_state := fresh_context_state w;
     rejects_double_stop := rejects_double_stop w; log := log w |}.

Definition set_window_audioContext (c : option ContextState) (w : World) : World :=
  {| sources := sources w; gains := gains w; next_node := next_node w;
     next_blob := next_blob w; window_audioContext := c;
     fresh_context_state := fresh_context_state w;
     rejects_double_stop := rejects_double_stop w; log := log w |}.

Definition emit (e : Event) (w : World) : World :=
  {| sources := sources w; gains := gains w; next_node := next_node w;
     next_blob := next_blob w; window_audioContext := window_audioContext w;
     fresh_context_state := fresh_context_state w;
     rejects_double_stop := rejects_double_stop w; log := log w ++ [e] |}.

(** The exception the Web Audio API throws on a call made in the wrong
    state. *)
Definition InvalidStateError : JsError :=
  Error (lit "InvalidStateError").

Module URL.
(** [URL.revokeObjectURL(url)] *)
Definition revokeObjectURL (url : jsstring) : Eff World unit :=
  modify (emit (RevokeObjectURL url)).

(** [URL.createObjectURL(blob)]: a URL not handed out before. *)
Definition createObjectURL : Eff World jsstring :=
  let* n := gets next_blob in
  let url := lit "blob:" ++ toString n in
  modify (set_next_blob (N.succ n)) >>
  ret url.
End URL.

Module AudioContext.
(** [ctx.createBufferSource()] *)
Definition createBufferSource : Eff World nat :=
  let* n := gets next_node in
  modify (set_sources (insert n Unstarted)) >>
  modify (set_next_node (S n)) >>
  ret n.

(** [ctx.createGain()]; a new gain node has gain 1. *)
Definition createGain : Eff World nat :=
  let* n := gets next_node in
  modify (set_gains (insert n 1%N)) >>
  modify (set_next_node (S n)) >>
  ret n.

(** [gainNode.gain.value = v] *)
Definition set_gain_value (node : nat) (v : N) : Eff World unit :=
  modify (set_gains (insert node v)).

(** [source.start(0)]: throws unless the node was never started. *)
Definition start (node : nat) : Eff World unit :=
  let* st := gets (fun w => sources w !! node) in
  match st with
  | Some Unstarted =>
      modify (set_sources (insert node Playing)) >>
      modify (emit (SourceStart node))
  | _ => throw InvalidStateError
  end.

(** [source.stop()]: stops a playing node; throws on a node that was
    never started; on a node already stopped it throws or does nothing,
    as the browser has it. *)
Definition stop (node : nat) : Eff World unit :=
  let* st := gets (fun w => sources w !! node) in
  match st with
  | Some Playing =>
      modify (set_sources (insert node Stopped)) >>
      modify (emit (SourceStop node))
  | Some Stopped =>
      let* strict := gets rejects_double_stop in
      if strict then throw InvalidStateError else ret tt
  | _ => throw InvalidStateError
  end.
End AudioContext.

(** ** The generation service ([services/geminiService.ts]) *)

(** A video operation as the service reads it: [operation.done] and
    [operation.response?.generatedVideos?.[0]?.video?.uri]. *)
Record Operation := { done : bool; uri : option jsstring }.

(** A [fetch] response: [res.ok], [res.statusText], and how reading the
    body with [res.blob()] ends. *)
Record Response := { ok : bool; statusText : jsstring; blob : Outcome unit }.

(** What the outside answers during one run of the pipeline.  Every
    request may be fulfilled, be rejected, or hang.  Each of the three
    service functions first creates its client with [new GoogleGenAI];
    a constructor that throws rejects the call as a rejected first
    request does, and is counted with it.  [decodeAudioData] is the
    decoder of [services/audioUtils.ts], taken as given. *)
Record Backend := {
  API_KEY : jsstring;
  (* [ai.models.generateContent] of the text model: [response.text] *)
  generateContent_text : jsstring -> Outcome (option jsstring);
  (* [ai.models.generateVideos] *)
  generateVideos : jsstring -> AspectRatio -> Outcome Operation;
  (* the answers of [ai.operations.getVideosOperation] to successive polls *)
  getVideosOperation : list (Outcome Operation);
  fetch : jsstring -> Outcome Response;
  (* [generateContent] of the speech model:
     [response.candidates?.[0]?.content?.parts?.[0]?.inlineData?.data] *)
  generateContent_audio : jsstring -> VoiceName -> Outcome (option jsstring);
  decodeAudioData : jsstring -> N -> N -> Outcome AudioBuffer;
  (* when both filming requests are rejected: was speech rejected first *)
  speech_settles_first : bool;
  Date_now : N
}.

Module geminiService.

(** [ensureApiKey()]: [aistudio] is what [window.aistudio] answers to
    [hasSelectedApiKey()], or [None] when there is no [window.aistudio]. *)
Definition ensureApiKey (aistudio : option (Outcome bool)) : Outcome bool :=
match aistudio with
| Some hasKey => hasKey
| None => Ok false
end.

(** [promptForApiKey()]: [aistudio] is how [openSelectKey()] ends. *)
Definition promptForApiKey (aistudio : option (Outcome unit)) : Outcome unit :=
match aistudio with
| Some selected => selected
| None => Ok tt
end.

Definition quote : jsstring := [34%N].
Definition newline : jsstring := [10%N].

(** The prompt of [generateScript], a template literal around the idea. *)
Definition script_prompt (idea : jsstring) : jsstring :=
  newline ++
  lit "    You are a professional movie script writer. " ++ newline ++
  lit "    Write a short, engaging voiceover script (maximum 2-3 sentences) for a video based on this idea: "
    ++ quote ++ idea ++ quote ++ lit "." ++ newline ++
  lit "    The script should be suitable for a 5-10 second video clip." ++ newline ++
  lit "    Output ONLY the raw text of the script, no labels like "
    ++ quote ++ lit "Voiceover:" ++ quote ++ lit " or "
    ++ quote ++ lit "Narrator:" ++ quote ++ lit "." ++ newline ++
  lit "  ".

(** [response.text?.trim() || "Enjoy this scene."] *)
Definition script_of_response (text : option jsstring) : jsstring :=
  match text with
  | Some t => or_else (trim t) (lit "Enjoy this scene.")
  | None => lit "Enjoy this scene."
  end.

Definition generateScript (b : Backend) (idea : jsstring) : Eff World jsstring :=
  modify (emit (GenerateScript idea)) >>
  let prompt := script_prompt idea in
  let* text := await (generateContent_text b prompt) in
  ret (script_of_response text).

(** The polling loop of [generateVideo]: ask again until the operation
    is done.  When the answers run out the loop is still waiting. *)
Fixpoint poll (answers : list (Outcome Operation)) (operation : Operation)
  : Outcome Operation :=
  if done operation then Ok operation
  else match answers with
       | [] => Never
       | Ok operation' :: answers' => poll answers' operation'
       | Throw e :: _ => Throw e
       | Never :: _ => Never
       end.

Definition generateVideo (b : Backend) (idea : jsstring) (aspectRatio : AspectRatio)
  : Eff World jsstring :=
  modify (emit (GenerateVideo idea aspectRatio)) >>
  let* operation := await (generateVideos b idea aspectRatio) in
  let* operation := await (poll (getVideosOperation b) operation) in
  match uri operation with
  | Some videoUri =>
      if truthy videoUri then
        let fetchUrl := videoUri ++ lit "&key=" ++ API_KEY b in
        let* res := await (fetch b fetchUrl) in
        if ok res then
          await (blob res) >>
          URL.createObjectURL
        else throw (Error (lit "Failed to download video: " ++ statusText res))
      else throw (Error (lit "Failed to generate video URI."))
  | None => throw (Error (lit "Failed to generate video URI."))
  end.

(** [getAudioContext()]: the one audio context of the page, created on
    first use and resumed when found suspended. *)
Definition getAudioContext : Eff World unit :=
  let* ctx := gets window_audioContext in
  (match ctx with
   | None =>
       let* st := gets fresh_context_state in
       modify (set_window_audioContext (Some st))
   | Some _ => ret tt
   end) >>
  let* ctx := gets window_audioContext in
  match ctx with
  | Some Suspended => modify (set_window_audioContext (Some Running))
  | _ => ret tt
  end.

Definition generateSpeech (b : Backend) (text : jsstring) (voice : VoiceName)
  : Eff World AudioBuffer :=
  modify (emit (GenerateSpeech text voice)) >>
  let* base64Audio := await (generateContent_audio b text voice) in
  match base64Audio with
  | Some data =>
      if truthy data then
        getAudioContext >>
        await (decodeAudioData b data 24000 1)
      else throw (Error (lit "No audio data returned from TTS model."))
  | None => throw (Error (lit "No audio data returned from TTS model."))
  end.

End geminiService.

(** The value of [Promise.all([p, q])]: fulfilled when both are, rejected as soon as one
    is rejected, with the reason of the rejection that came first. *)
Definition Promise_all {A B} (second_first : bool) (p : Outcome A) (q : Outcome B)
  : Outcome (A * B) :=
  match p, q with
  | Throw e1, Throw e2 => Throw (if second_first then e2 else e1)
  | Throw e, _ => Throw e
  | _, Throw e => Throw e
  | Ok a, Ok b => Ok (a, b)
  | _, _ => Never
  end.

(** ** The component ([components/MovieCreator.tsx]) *)

(** The [<video>] element, as far as the component touches it. *)
Record HTMLVideoElement := {
  muted : bool;
  paused : bool;
  currentTime : N
}.

(** The state cells and refs of [MovieCreator].  [videoRef] holds the
    element itself, [audioSourceRef] and [gainNodeRef] the identity of a
    node of the [World], [audioContextRef] whether the shared context was
    stored. *)
Record Component := {
  idea : jsstring;  (* input state *)
  aspectRatio : AspectRatio;
  voice : VoiceName;
  status : GenerationStatus.t;  (* app logic state *)
  movie : option MovieData.t;
  apiKeyReady : bool;
  isPlaying : bool;  (* playback state *)
  isMuted : bool;
  videoRef : option HTMLVideoElement;  (* refs: [.current]; [None] is [null] *)
  audioContextRef : bool;
  audioSourceRef : option nat;
  gainNodeRef : option nat
}.

Definition set_idea (v : jsstring) (c : Component) : Component :=
  {| idea := v; aspectRatio := aspectRatio c; voice := voice c;
     status := status c; movie := movie c; apiKeyReady := apiKeyReady c;
     isPlaying := isPlaying c; isMuted := isMuted c; videoRef := videoRef c;
     audioContextRef := audioContextRef c;
     audioSourceRef := audioSourceRef c; gainNodeRef := gainNodeRef c |}.

Definition set_aspectRatio (v : AspectRatio) (c : Component) : Component :=
  {| idea := idea c; aspectRatio := v; voice := voice c; status := status c;
     movie := movie c; apiKeyReady := apiKeyReady c;
     isPlaying := isPlaying c; isMuted := isMuted c; videoRef := videoRef c;
     audioContextRef := audioContextRef c;
     audioSourceRef := audioSourceRef c; gainNodeRef := gainNodeRef c |}.

Definition set_voice (v : VoiceName) (c : Component) : Component :=
  {| idea := idea c; aspectRatio := aspectRatio c; voice := v;
     status := status c; movie := movie c; apiKeyReady := apiKeyReady c;
     isPlaying := isPlaying c; isMuted := isMuted c; videoRef := videoRef c;
     audioContextRef := audioContextRef c;
     audioSourceRef := audioSourceRef c; gainNodeRef := gainNodeRef c |}.

Definition set_status (v : GenerationStatus.t) (c : Component) : Component :=
  {| idea := idea c; aspectRatio := aspectRatio c; voice := voice c;
     status := v; movie := movie c; apiKeyReady := apiKeyReady c;
     isPlaying := isPlaying c; isMuted := isMuted c; videoRef := videoRef c;
     audioContextRef := audioContextRef c;
     audioSourceRef := audioSourceRef c; gainNodeRef := gainNodeRef c |}.

Definition set_movie (v : option MovieData.t) (c : Component) : Component :=
  {| idea := idea c; aspectRatio := aspectRatio c; voice := voice c;
     status := status c; movie := v; apiKeyReady := apiKeyReady c;
     isPlaying := isPlaying c; isMuted := isMuted c; videoRef := videoRef c;
     audioContextRef := audioContextRef c;
     audioSourceRef := audioSourceRef c; gainNodeRef := gainNodeRef c |}.

Definition set_apiKeyReady (v : bool) (c : Component) : Component :=
  {| idea := idea c; aspectRatio := aspectRatio c; voice := voice c;
     status := status c; movie := movie c; apiKeyReady := v;
     isPlaying := isPlaying c; isMuted := isMuted c; videoRef := videoRef c;
     audioContextRef := audioContextRef c;
     audioSourceRef := audioSourceRef c; gainNodeRef := gainNodeRef c |}.

Definition set_isPlaying (v : bool) (c : Component) : Component :=
  {| idea := idea c; aspectRatio := aspectRatio c; voice := voice c;
     status := status c; movie := movie c; apiKeyReady := apiKeyReady c;
     isPlaying := v; isMuted := isMuted c; videoRef := videoRef c;
     audioContextRef := audioContextRef c;
     audioSourceRef := audioSourceRef c; gainNodeRef := gainNodeRef c |}.

Definition set_isMuted (v : bool) (c : Component) : Component :=
  {| idea := idea c; aspectRatio := aspectRatio c; voice := voice c;
     status := status c; movie := movie c; apiKeyReady := apiKeyReady c;
     isPlaying := isPlaying c; isMuted := v; videoRef := videoRef c;
     audioContextRef := audioContextRef c;
     audioSourceRef := audioSourceRef c; gainNodeRef := gainNodeRef c |}.

Definition set_videoRef (v : option HTMLVideoElement) (c : Component) : Component :=
  {| idea := idea c; aspectRatio := aspectRatio c; voice := voice c;
     status := status c; movie := movie c; apiKeyReady := apiKeyReady c;
     isPlaying := isPlaying c; isMuted := isMuted c; videoRef := v;
     audioContextRef := audioContextRef c;
     audioSourceRef := audioSourceRef c; gainNodeRef := gainNodeRef c |}.

Definition set_audioContextRef (v : bool) (c : Component) : Component :=
  {| idea := idea c; aspectRatio := aspectRatio c; voice := voice c;
     status := status c; movie := movie c; apiKeyReady := apiKeyReady c;
     isPlaying := isPlaying c; isMuted := isMuted c; videoRef := videoRef c;
     audioContextRef := v; audioSourceRef := audioSourceRef c;
     gainNodeRef := gainNodeRef c |}.

Definition set_audioSourceRef (v : option nat) (c : Component) : Component :=
  {| idea := idea c; aspectRatio := aspectRatio c; voice := voice c;
     status := status c; movie := movie c; apiKeyReady := apiKeyReady c;
     isPlaying := isPlaying c; isMuted := isMuted c; videoRef := videoRef c;
     audioContextRef := audioContextRef c; audioSourceRef := v;
     gainNodeRef := gainNodeRef c |}.

Definition set_gainNodeRef (v : option nat) (c : Component) : Component :=
  {| idea := idea c; aspectRatio := aspectRatio c; voice := voice c;
     status := status c; movie := movie c; apiKeyReady := apiKeyReady c;
     isPlaying := isPlaying c; isMuted := isMuted c; videoRef := videoRef c;
     audioContextRef := audioContextRef c;
     audioSourceRef := audioSourceRef c; gainNodeRef := v |}.

Record System := { comp : Component; world : World }.

Definition on_comp (f : Component -> Component) (s : System) : System :=
  {| comp := f (comp s); world := world s |}.

(** A call into the browser or the service from inside the component. *)
Definition in_world {A} (m : Eff World A) : Eff System A :=
  fun s =>
    let '(r, w) := m (world s) in (r, {| comp := comp s; world := w |}).

(** Reading a state cell or a ref. *)
Definition use {A} (f : Component -> A) : Eff System A :=
  gets (fun s => f (comp s)).

(** Two requests started one after the other and joined by
    [await Promise.all([p, q])]. *)
Definition await_all {A B} (second_first : bool) (p : Eff World A) (q : Eff World B)
  : Eff World (A * B) :=
  fun w =>
    let '(op, w1) := p w in
    let '(oq, w2) := q w1 in
    (Promise_all second_first op oq, w2).

(** *** State setters and the element *)

Definition setIdea v : Eff System unit := modify (on_comp (set_idea v)).
Definition setAspectRatio v : Eff System unit := modify (on_comp (set_aspectRatio v)).
Definition setVoice v : Eff System unit := modify (on_comp (set_voice v)).
Definition setStatus v : Eff System unit := modify (on_comp (set_status v)).
Definition setApiKeyReady v : Eff System unit := modify (on_comp (set_apiKeyReady v)).
Definition setIsPlaying v : Eff System unit := modify (on_comp (set_isPlaying v)).
Definition setIsMuted v : Eff System unit := modify (on_comp (set_isMuted v)).

(** The element React puts in [videoRef] when the player is rendered. *)
Definition new_video : HTMLVideoElement :=
  {| muted := false; paused := true; currentTime := 0 |}.

(** [setMovie(m)] and the commit that follows: the player, and with it the
    [<video ref={videoRef}>] element, is rendered exactly while a movie is
    present ([{movie && (...)}]). *)
Definition setMovie (m : option MovieData.t) : Eff System unit :=
  modify (on_comp (fun c =>
    let v := match m, videoRef c with
             | None, _ => None
             | Some _, Some v => Some v
             | Some _, None => Some new_video
             end in
    set_videoRef v (set_movie m c))).

(** An assignment to a property of [videoRef.current]. *)
Definition video_set (f : HTMLVideoElement -> HTMLVideoElement) : Eff System unit :=
  modify (on_comp (fun c => set_videoRef (f <$> videoRef c) c)).

Definition video_pause : Eff System unit :=
  video_set (fun v => {| muted := muted v; paused := true; currentTime := currentTime v |}).

Definition video_play : Eff System unit :=
  video_set (fun v => {| muted := muted v; paused := false; currentTime := currentTime v |}).

Definition video_set_currentTime (t : N) : Eff System unit :=
  video_set (fun v => {| muted := muted v; paused := paused v; currentTime := t |}).

Definition video_set_muted (b : bool) : Eff System unit :=
  video_set (fun v => {| muted := b; paused := paused v; currentTime := currentTime v |}).

(** The three statuses of a run that goes well, and the error status. *)
Definition status_script : GenerationStatus.t :=
  GenerationStatus.mk step_script (Some (lit "Writing the screenplay...")) None.

Definition status_video : GenerationStatus.t :=
  GenerationStatus.mk step_video
    (Some (lit "Filming on location (Veo) & Recording voiceover...")) None.

Definition status_complete : GenerationStatus.t :=
  GenerationStatus.mk step_complete (Some (lit "Movie ready!")) None.

Definition status_error (msg : jsstring) : GenerationStatus.t :=
  GenerationStatus.mk step_error None (Some msg).

Definition api_key_error : jsstring :=
  lit "API Key Error. Please re-select your paid API key.".

(** *** The credential *)

(** [checkApiKey], resumed with the answer of [ensureApiKey()]. *)
Definition checkApiKey (ready : Outcome bool) : Eff System unit :=
  let* ready := await ready in
  setApiKeyReady ready.

(** [handleSelectApiKey], resumed with the end of [promptForApiKey()]. *)
Definition handleSelectApiKey (prompt : Outcome unit) : Eff System unit :=
  try_catch
    (await prompt >>
     setApiKeyReady true)
    (fun _ => setStatus (status_error (lit "Failed to select API key"))).

(** *** Audio playback and the generation pipeline *)

Definition stopAudio : Eff System unit :=
  let* source := use audioSourceRef in
  match source with
  | Some node =>
      try_catch (in_world (AudioContext.stop node)) (fun _ => ret tt) >>
      modify (on_comp (set_audioSourceRef None))
  | None => ret tt
  end.

(** [err.message || 'An unexpected error occurred.'].  Reading [message]
    off [null] or [undefined] throws; a message that is missing, falsy or
    the empty string gives way to the fixed text. *)
Definition error_message (err : JsError) : Outcome Message :=
  match err with
  | Nullish => Throw TypeError
  | Thrown (Some (Text m)) => Ok (Text (or_else m (lit "An unexpected error occurred.")))
  | Thrown (Some NotText) => Ok NotText
  | Thrown None => Ok (Text (lit "An unexpected error occurred."))
  end.

(** Does a message carry one of the markers of a credential problem. *)
Definition is_api_key_error (msg : jsstring) : bool :=
  includes msg (lit "Requested entity was not found")
  || includes msg (lit "403") || includes msg (lit "401").

(** The [catch] block of [generateMovie].  It has no handler of its own:
    what it throws ends the call of [generateMovie] with a rejection. *)
Definition generateMovie_catch (err : JsError) : Eff System unit :=
  let* msg := await (error_message err) in
  match msg with
  | Text msg =>
      if is_api_key_error msg
      then
        setStatus (status_error api_key_error) >>
        setApiKeyReady false
      else
        setStatus (status_error msg)
  | NotText => throw TypeError   (* [msg.includes] is not a function *)
  end.

Section Render.

(** A handler is a closure of the render that created it: the state
    cells it mentions have the values of that render, whereas refs and
    the browser are read when the handler runs.  An event runs the
    handler of the latest render ([handle] below). *)
Variable render : Component.

Definition playAudio : Eff System unit :=
  match movie render with
  | Some {| MovieData.audioBuffer := Some _ |} =>
      in_world geminiService.getAudioContext >>
      modify (on_comp (set_audioContextRef true)) >>
      (* Stop existing source *)
      (let* existing := use audioSourceRef in
       match existing with
       | Some node => try_catch (in_world (AudioContext.stop node)) (fun _ => ret tt)
       | None => ret tt
       end) >>
      (* [source.buffer], the connections to the gain node and to the
         destination, and the empty [onended] are not kept track of *)
      let* source := in_world AudioContext.createBufferSource in
      let* gainNode := in_world AudioContext.createGain in
      in_world (AudioContext.set_gain_value gainNode (if isMuted render then 0 else 1)%N) >>
      in_world (AudioContext.start source) >>
      modify (on_comp (set_audioSourceRef (Some source))) >>
      modify (on_comp (set_gainNodeRef (Some gainNode)))
  | _ => ret tt
  end.

(** The statements of [generateMovie] between the guard and [try]. *)
Definition generateMovie_reset : Eff System unit :=
  (* Reset previous movie if exists *)
  (match movie render with
   | Some m =>
       in_world (URL.revokeObjectURL (MovieData.videoUrl m)) >>
       setMovie None
   | None => ret tt
   end) >>
  setIsPlaying false >>
  stopAudio.

(** The [try] block of [generateMovie]. *)
Definition generateMovie_try (b : Backend) : Eff System unit :=
  (* 1. Script *)
  setStatus status_script >>
  let* script := in_world (geminiService.generateScript b (idea render)) in
  (* 2. Video & Audio (Parallel) *)
  setStatus status_video >>
  let* both :=
    in_world
      (await_all (speech_settles_first b)
         (geminiService.generateVideo b (idea render) (aspectRatio render))
         (geminiService.generateSpeech b script (voice render))) in
  let '(videoUrl, audioBuffer) := both in
  setMovie
    (Some (MovieData.mk (toString (Date_now b)) script videoUrl
             (Some audioBuffer) (aspectRatio render))) >>
  setStatus status_complete.

Definition generateMovie (b : Backend) : Eff System unit :=
  if negb (truthy (trim (idea render))) then ret tt
  else
    generateMovie_reset >>
    try_catch (generateMovie_try b) generateMovie_catch.

Definition togglePlay : Eff System unit :=
  let* v := use videoRef in
  match v, movie render with
  | Some _, Some _ =>
      if isPlaying render then
        video_pause >>
        stopAudio >>
        setIsPlaying false
      else
        video_set_currentTime 0 >>
        video_play >>
        playAudio >>
        setIsPlaying true
  | _, _ => ret tt
  end.

Definition toggleMute : Eff System unit :=
  setIsMuted (negb (isMuted render)) >>
  (let* g := use gainNodeRef in
   match g with
   | Some gainNode =>
       in_world (AudioContext.set_gain_value gainNode
                   (if negb (isMuted render) then 0 else 1)%N)
   | None => ret tt
   end) >>
  let* v := use videoRef in
  match v with
  | Some _ => video_set_muted (negb (isMuted render))
  | None => ret tt
  end.

Definition handleVideoEnded : Eff System unit :=
  setIsPlaying false >>
  stopAudio.

Definition handleVideoPause : Eff System unit :=
  if isPlaying render then
    setIsPlaying false >>
    stopAudio
  else ret tt.

Definition handleVideoPlay : Eff System unit :=
  if negb (isPlaying render) then
    setIsPlaying true >>
    playAudio
  else ret tt.

(** [disabled] of the button whose [onClick] is [generateMovie]. *)
Definition generate_disabled : bool :=
  negb (apiKeyReady render)
  || negb (truthy (idea render))
  || bool_decide (GenerationStatus.step (status render) = step_script)
  || bool_decide (GenerationStatus.step (status render) = step_video).

End Render.

(** An event reaches the handler of the latest render. *)
Definition handle {A} (h : Component -> Eff System A) : Eff System A :=
  fun s => h (comp s) s.

(** A click on the generate button: a disabled button fires no [onClick]. *)
Definition click_generate (b : Backend) : Eff System unit :=
  handle (fun render =>
    if generate_disabled render then ret tt else generateMovie render b).

(** ** Vocabulary of the properties *)

(** The world after [stop()] on [node] inside [try { } catch (e) {}]:
    a playing node is stopped, anything else is left as it was. *)
Definition stopped_world (node : nat) (w : World) : World :=
  match sources w !! node with
  | Some Playing => emit (SourceStop node) (set_sources (insert node Stopped) w)
  | _ => w
  end.

(** [needle] occurs in [s]. *)
Definition substring (needle s : jsstring) : Prop :=
  exists pre post, s = pre ++ needle ++ post.

(** The handle tracked in [audioSourceRef], if any, is not playing: there
    is none, or its node was never started or has already been stopped. *)
Definition inactive_handle (s : System) : Prop :=
  forall node, audioSourceRef (comp s) = Some node ->
               sources (world s) !! node <> Some Playing.

(** A request that is rejected, respectively fulfilled, whatever the state
    of the browser when it is made. *)
Definition rejects {A} (request : Eff World A) : Prop :=
  forall w, is_throw (fst (request w)) = true.

Definition fulfils {A} (request : Eff World A) : Prop :=
  forall w, is_ok (fst (request w)) = true.

Definition Outcome_map {A B} (f : A -> B) (o : Outcome A) : Outcome B :=
  match o with
  | Ok a => Ok (f a)
  | Throw e => Throw e
  | Never => Never
  end.

(** *** Concrete states and backends *)

(** The component as [useState] and [useRef] initialise it. *)
Definition initial_component : Component :=
  {| idea := []; aspectRatio := Landscape; voice := Kore;
     status := GenerationStatus.mk step_idle None None;
     movie := None; apiKeyReady := false;
     isPlaying := false; isMuted := false;
     videoRef := None; audioContextRef := false;
     audioSourceRef := None; gainNodeRef := None |}.

(** A page on which nothing has happened yet. *)
Definition initial_world (strict : bool) : World :=
  {| sources := ∅; gains := ∅; next_node := 0; next_blob := 0;
     window_audioContext := None; fresh_context_state := Suspended;
     rejects_double_stop := strict; log := [] |}.

(** The user has selected a key and typed an idea. *)
Definition ready_system (strict : bool) (text : jsstring) : System :=
  {| comp := set_apiKeyReady true (set_idea text initial_component);
     world := initial_world strict |}.

(** A backend on which every request succeeds; the video is ready at the
    second poll. *)
Definition backend_ok : Backend :=
  {| API_KEY := lit "key";
     generateContent_text := fun _ =>
       Ok (Some (lit "A cat cruises down the boardwalk, tail high."));
     generateVideos := fun _ _ => Ok {| done := false; uri := None |};
     getVideosOperation :=
       [Ok {| done := false; uri := None |};
        Ok {| done := true; uri := Some (lit "https://video.example/clip?alt=media") |}];
     fetch := fun _ => Ok {| ok := true; statusText := lit "OK"; blob := Ok tt |};
     generateContent_audio := fun _ _ => Ok (Some (lit "UklGRg=="));
     decodeAudioData := fun _ rate channels =>
       Ok {| numberOfChannels := channels; sampleRate := rate; frames := 48000 |};
     speech_settles_first := false;
     Date_now := 1700000000000 |}.

(** [backend_ok] with another answer to the video request. *)
Definition with_video (o : Outcome Operation) (b : Backend) : Backend :=
  {| API_KEY := API_KEY b;
     generateContent_text := generateContent_text b;
     generateVideos := fun _ _ => o;
     getVideosOperation := getVideosOperation b;
     fetch := fetch b;
     generateContent_audio := generateContent_audio b;
     decodeAudioData := decodeAudioData b;
     speech_settles_first := speech_settles_first b;
     Date_now := Date_now b |}.

(** ... with another answer of the speech model. *)
Definition with_audio (o : Outcome (option jsstring)) (b : Backend) : Backend :=
  {| API_KEY := API_KEY b;
     generateContent_text := generateContent_text b;
     generateVideos := generateVideos b;
     getVideosOperation := getVideosOperation b;
     fetch := fetch b;
     generateContent_audio := fun _ _ => o;
     decodeAudioData := decodeAudioData b;
     speech_settles_first := speech_settles_first b;
     Date_now := Date_now b |}.

(** ... with another answer of the text model. *)
Definition with_text (o : Outcome (option jsstring)) (b : Backend) : Backend :=
  {| API_KEY := API_KEY b;
     generateContent_text := fun _ => o;
     generateVideos := generateVideos b;
     getVideosOperation := getVideosOperation b;
     fetch := fetch b;
     generateContent_audio := generateContent_audio b;
     decodeAudioData := decodeAudioData b;
     speech_settles_first := speech_settles_first b;
     Date_now := Date_now b |}.

Definition cat_idea : jsstring := lit "a cat on a skateboard".

(** A first movie has been generated. *)
Definition with_movie (strict : bool) : System :=
  exec (click_generate backend_ok) (ready_system strict cat_idea).

(** ... and is playing. *)
Definition playing (strict : bool) : System :=
  exec (handle togglePlay) (with_movie strict).

(** ... and was paused again: the tracked handle is gone, the node stopped. *)
Definition paused_again (strict : bool) : System :=
  exec (handle togglePlay) (playing strict).

(** The movie is playing and its audio, shorter than the video, has
    played to its end: the handle is still tracked, the node is over. *)
Definition audio_over (strict : bool) : System :=
  {| comp := comp (playing strict);
     world := set_sources (insert 0 Stopped) (world (playing strict)) |}.

(** The system once the statements before [try] have run: the previous
    movie, if the render had one, is revoked and cleared, playback is
    marked as stopped, the tracked audio handle is stopped and dropped. *)
Definition reset_system (render : Component) (s : System) : System :=
  let c := match movie render with
           | Some _ => set_videoRef None (set_movie None (comp s))
           | None => comp s
           end in
  let w := match movie render with
           | Some m => emit (RevokeObjectURL (MovieData.videoUrl m)) (world s)
           | None => world s
           end in
  {| comp := set_audioSourceRef None (set_isPlaying false c);
     world := match audioSourceRef (comp s) with
              | Some node => stopped_world node w
              | None => w
              end |}.

(** The [catch] block of [generateMovie] gets through [err]: it is not
    [null] or [undefined], and its message is missing or a string. *)
Definition readable (err : JsError) : bool :=
  match err with
  | Thrown None | Thrown (Some (Text _)) => true
  | _ => false
  end.

(** The text the [catch] block works with, for an [err] it gets through. *)
Definition failure_text (err : JsError) : jsstring :=
  match err with
  | Thrown (Some (Text m)) => or_else m (lit "An unexpected error occurred.")
  | _ => lit "An unexpected error occurred."
  end.

(** The component after the [catch] block has run on [err]: nothing is
    written when the block itself throws. *)
Definition caught (err : JsError) (c : Component) : Component :=
  if readable err then
    if is_api_key_error (failure_text err)
    then set_apiKeyReady false (set_status (status_error api_key_error) c)
    else set_status (status_error (failure_text err)) c
  else c.

(** How the [catch] block ends on [err]. *)
Definition catch_outcome (err : JsError) : Outcome unit :=
  if readable err then Ok tt else Throw TypeError.

(** The two requests of the filming step, joined. *)
Definition filming (render : Component) (b : Backend) (script : jsstring)
  : Eff World (jsstring * AudioBuffer) :=
  await_all (speech_settles_first b)
    (geminiService.generateVideo b (idea render) (aspectRatio render))
    (geminiService.generateSpeech b script (voice render)).

(** The movie record [generateMovie] assembles. *)
Definition assemble (render : Component) (b : Backend) (script : jsstring)
    (result : jsstring * AudioBuffer) : MovieData.t :=
  MovieData.mk (toString (Date_now b)) script (fst result) (Some (snd result))
    (aspectRatio render).

(** The component after [setMovie(m)] with a movie. *)
Definition show_movie (m : MovieData.t) (c : Component) : Component :=
  set_videoRef (match videoRef c with Some v => Some v | None => Some new_video end)
    (set_movie (Some m) c).

(** The run of [generateMovie] throws [err] into its [catch] block. *)
Definition run_throws (b : Backend) (s : System) (err : JsError) : Prop :=
  fst (generateMovie_try (comp s) b (reset_system (comp s) s)) = Throw err.

(** [msg] carries one of the three markers of a credential problem. *)
Definition authorization_marker (msg : jsstring) : Prop :=
  substring (lit "Requested entity was not found") msg
  \/ substring (lit "403") msg
  \/ substring (lit "401") msg.

(** The state a click on the generate handler leads to. *)
Definition generated (b : Backend) (s : System) : System :=
  exec (handle (fun render => generateMovie render b)) s.

(** The URLs revoked in a stretch of the log. *)
Definition revocations (events : list Event) : list jsstring :=
  omap (fun e => match e with RevokeObjectURL url => Some url | _ => None end)
    events.

(** What was logged between two states. *)
Definition new_events (s s' : System) : list Event :=
  drop (length (log (world s))) (log (world s')).

(** The [stop] that [stopAudio] gets through, if any. *)
Definition audio_stops (s : System) : list Event :=
  match audioSourceRef (comp s) with
  | Some node =>
      match sources (world s) !! node with
      | Some Playing => [SourceStop node]
      | _ => []
      end
  | None => []
  end.

(** C2 as worded: whenever the failure has a message without a marker,
    that very message becomes the error text. *)
Definition raw_message_always_surfaced : Prop :=
  forall (b : Backend) (s : System) (err : JsError) (m : jsstring),
    truthy (trim (idea (comp s))) = true ->
    run_throws b s err ->
    err = Error m ->
    is_api_key_error m = false ->
    status (comp (generated b s)) = status_error m
    /\ apiKeyReady (comp (generated b s)) = apiKeyReady (comp s).


(** C4 as worded: some run whose script and video requests succeed and
    whose speech request is rejected ends with a movie without audio. *)
Definition movie_without_audio_exposed : Prop :=
  exists (b : Backend) (s : System) (text : option jsstring) (m : MovieData.t),
    truthy (trim (idea (comp s))) = true
    /\ generateContent_text b (geminiService.script_prompt (idea (comp s))) = Ok text
    /\ fulfils (geminiService.generateVideo b (idea (comp s)) (aspectRatio (comp s)))
    /\ rejects (geminiService.generateSpeech b
                  (geminiService.script_of_response text) (voice (comp s)))
    /\ movie (comp (generated b s)) = Some m
    /\ MovieData.audioBuffer m = None.


(** Backends on which one request is rejected. *)
Definition backend_video_403 : Backend :=
  with_video (Throw (Error (lit "got status: 403 Forbidden"))) backend_ok.


Definition backend_no_audio : Backend :=
  with_audio (Ok None) backend_ok.

Definition backend_script_fails (err : JsError) : Backend :=
  with_text (Throw err) backend_ok.

(** ** The component over time *)

(** [generateMovie] is an [async] function: it runs up to an [await],
    gives way to other events, and goes on when the awaited promise has
    settled.  Below it is cut at its two [await]s.  A request is made
    when it is called, and what it will answer is fixed by the backend
    from then on; the caller sees the answer when the promise settles. *)

(** Calling an [async] function without awaiting it: its promise. *)
Definition request {A} (m : Eff World A) : Eff System (Outcome A) :=
  fun s =>
    let '(o, w) := m (world s) in (Ok o, {| comp := comp s; world := w |}).

Section Phases.

Variables (render : Component) (b : Backend).

(** From the call to the first [await]; the result is the promise of
    [generateScript], or nothing when the guard returned. *)
Definition generateMovie_start : Eff System (option (Outcome jsstring)) :=
  if negb (truthy (trim (idea render))) then ret None
  else
    generateMovie_reset render >>
    setStatus status_script >>
    let* promise := request (geminiService.generateScript b (idea render)) in
    ret (Some promise).

(** From the first [await] to the second; the result is the script and
    the promise of [Promise.all], or nothing when the [catch] block
    ended the run. *)
Definition generateMovie_scripted (promise : Outcome jsstring)
  : Eff System (option (jsstring * Outcome (jsstring * AudioBuffer))) :=
  try_catch
    (let* script := await promise in
     setStatus status_video >>
     let* join := request (filming render b script) in
     ret (Some (script, join)))
    (fun err => generateMovie_catch err >> ret None).

(** From the second [await] to the end. *)
Definition generateMovie_joined (script : jsstring)
    (join : Outcome (jsstring * AudioBuffer)) : Eff System unit :=
  try_catch
    (let* both := await join in
     let '(videoUrl, audioBuffer) := both in
     setMovie
       (Some (MovieData.mk (toString (Date_now b)) script videoUrl
                (Some audioBuffer) (aspectRatio render))) >>
     setStatus status_complete)
    generateMovie_catch.

(** The three pieces run one after the other. *)
Definition generateMovie_phases : Eff System unit :=
  let* started := generateMovie_start in
  match started with
  | None => ret tt
  | Some promise =>
      let* scripted := generateMovie_scripted promise in
      match scripted with
      | None => ret tt
      | Some (script, join) => generateMovie_joined script join
      end
  end.

End Phases.

(** A call of [generateMovie] that is waiting. *)
Inductive Phase :=
| AwaitScript (promise : Outcome jsstring)
| AwaitJoin (script : jsstring) (join : Outcome (jsstring * AudioBuffer)).

Record Run := {
  run_render : Component;   (* the render whose handler was called *)
  run_backend : Backend;    (* what the backend answers to this run *)
  run_phase : Phase
}.

(** The system together with the calls that are waiting at an [await]:
    the runs of the pipeline in flight, the call of [checkApiKey] made by
    the mount effect (with what [ensureApiKey()] will answer) until it is
    resumed, and the calls of [handleSelectApiKey] (each with how its
    [promptForApiKey()] will end). *)
Record App := {
  sys : System;
  runs : list Run;
  check : option (Outcome bool);
  dialogs : list (Outcome unit)
}.

(** The buffer of [node] has played to its end. *)
Definition source_ended (node : nat) (w : World) : World :=
  match sources w !! node with
  | Some Playing => set_sources (insert node Stopped) w
  | _ => w
  end.

(** What can happen to the page, one event at a time; the continuation
    of an [async] function after an [await] is an event of its own. *)
Inductive Action :=
| Check_settles
| Select_key (prompt : Outcome unit)
| Dialog_settles (i : nat)
| Audio_ended (node : nat)
| Type_idea (text : jsstring)
| Pick_aspectRatio (a : AspectRatio)
| Pick_voice (v : VoiceName)
| Click_generate (b : Backend)
| Script_settles (i : nat)
| Join_settles (i : nat)
| Click_play
| Click_mute
| Video_ended
| Video_pause
| Video_play
| Video_progress (t : N).

Definition settled {A} (o : Outcome A) : bool :=
  match o with Never => false | _ => true end.

Definition app_do (m : Eff System unit) (app : App) : App :=
  {| sys := exec m (sys app); runs := runs app;
     check := check app; dialogs := dialogs app |}.

(** The element's playback position moves on. *)
Definition elapsed (t : N) : Eff System unit := video_set_currentTime t.

(** The next state, or [None] when the action cannot happen: a promise
    that is not there or does not settle, a control or an element that
    is not rendered. *)
Definition step (a : Action) (app : App) : option App :=
  let c := comp (sys app) in
  match a with
  | Check_settles =>
      match check app with
      | Some ready =>
          if settled ready then
            Some {| sys := exec (checkApiKey ready) (sys app);
                    runs := runs app; check := None; dialogs := dialogs app |}
          else None
      | None => None
      end
  | Select_key prompt =>
      (* the button is rendered while [!apiKeyReady]; the handler calls
         [promptForApiKey()] and waits *)
      if apiKeyReady c then None
      else Some {| sys := sys app; runs := runs app; check := check app;
                   dialogs := dialogs app ++ [prompt] |}
  | Dialog_settles i =>
      match dialogs app !! i with
      | Some prompt =>
          if settled prompt then
            Some {| sys := exec (handleSelectApiKey prompt) (sys app);
                    runs := runs app; check := check app;
                    dialogs := delete i (dialogs app) |}
          else None
      | None => None
      end
  | Audio_ended node =>
      match sources (world (sys app)) !! node with
      | Some Playing =>
          Some {| sys := {| comp := c;
                            world := source_ended node (world (sys app)) |};
                  runs := runs app; check := check app;
                  dialogs := dialogs app |}
      | _ => None
      end
  | Type_idea text => Some (app_do (setIdea text) app)
  | Pick_aspectRatio r => Some (app_do (setAspectRatio r) app)
  | Pick_voice v => Some (app_do (setVoice v) app)
  | Click_generate b =>
      if generate_disabled c then Some app
      else
        match generateMovie_start c b (sys app) with
        | (Ok (Some promise), s') =>
            Some {| sys := s';
                    runs := runs app
                            ++ [{| run_render := c; run_backend := b;
                                   run_phase := AwaitScript promise |}];
                    check := check app; dialogs := dialogs app |}
        | (_, s') => Some {| sys := s'; runs := runs app;
                             check := check app; dialogs := dialogs app |}
        end
  | Script_settles i =>
      match runs app !! i with
      | Some {| run_render := r; run_backend := b;
                run_phase := AwaitScript promise |} =>
          if settled promise then
            match generateMovie_scripted r b promise (sys app) with
            | (Ok (Some (script, join)), s') =>
                Some {| sys := s';
                        runs := <[i := {| run_render := r; run_backend := b;
                                          run_phase := AwaitJoin script join |}]>
                                  (runs app);
                        check := check app; dialogs := dialogs app |}
            | (_, s') => Some {| sys := s'; runs := delete i (runs app);
                                 check := check app; dialogs := dialogs app |}
            end
          else None
      | _ => None
      end
  | Join_settles i =>
      match runs app !! i with
      | Some {| run_render := r; run_backend := b;
                run_phase := AwaitJoin script join |} =>
          if settled join then
            Some {| sys := exec (generateMovie_joined r b script join) (sys app);
                    runs := delete i (runs app);
                    check := check app; dialogs := dialogs app |}
          else None
      | _ => None
      end
  | Click_play =>
      match movie c with
      | Some _ => Some (app_do (handle togglePlay) app)
      | None => None
      end
  | Click_mute =>
      match movie c with
      | Some _ => Some (app_do (handle toggleMute) app)
      | None => None
      end
  | Video_ended =>
      match videoRef c with
      | Some _ => Some (app_do (handle (fun _ => handleVideoEnded)) app)
      | None => None
      end
  | Video_pause =>
      match videoRef c with
      | Some _ => Some (app_do (video_pause >> handle handleVideoPause) app)
      | None => None
      end
  | Video_play =>
      match videoRef c with
      | Some _ => Some (app_do (video_play >> handle handleVideoPlay) app)
      | None => None
      end
  | Video_progress t =>
      match videoRef c with
      | Some _ => Some (app_do (elapsed t) app)
      | None => None
      end
  end.

(** The page when the component has mounted: nothing typed, nothing
    generated, no audio node yet, and the credential check of the mount
    effect waiting for the answer [ready]. *)
Definition initial_app (ready : Outcome bool) (w : World) : App :=
  {| sys := {| comp := initial_component; world := w |};
     runs := []; check := Some ready; dialogs := [] |}.

Inductive reachable : App -> Prop :=
| reachable_initial (ready : Outcome bool) (w : World) :
    sources w = ∅ ->
    reachable (initial_app ready w)
| reachable_step (a : Action) (app app' : App) :
    reachable app -> step a app = Some app' -> reachable app'.






(** No source node is playing but the one in [audioSourceRef]. *)
Definition only_tracked_plays (s : System) : Prop :=
  forall node, sources (world s) !! node = Some Playing ->
               audioSourceRef (comp s) = Some node.

(** No source node is playing. *)
Definition silent (s : System) : Prop :=
  forall node, sources (world s) !! node <> Some Playing.


(** A computation that leaves a part [f] of the system as it is. *)
Definition keeps {A X} (f : System -> X) (m : Eff System A) : Prop :=
  forall s, f (snd (m s)) = f s.

(** What the generate button looks at besides the idea. *)
Definition gate (s : System) : GenerationStatus.t * bool :=
  (status (comp s), apiKeyReady (comp s)).

(** The source nodes and the handle on them. *)
Definition audio (s : System) : gmap nat NodeState * option nat :=
  (sources (world s), audioSourceRef (comp s)).

(** A computation under which a property of the system lasts. *)
Definition preserves {A} (P : System -> Prop) (m : Eff System A) : Prop :=
  forall s, P s -> P (snd (m s)).

(** The page after a list of actions, if they can happen in that order. *)
Fixpoint run_trace (trace : list Action) (app : App) : option App :=
  match trace with
  | [] => Some app
  | a :: trace' =>
      match step a app with
      | Some app' => run_trace trace' app'
      | None => None
      end
  end.

(** The page right after the mount, on which a key has been selected
    before. *)
Definition first_page : App := initial_app (Ok true) (initial_world true).


(** ** The rest of the component *)

(** The cleanup of the effect [useEffect(() => { return () => {...} }, [])],
    as a closure of the render that ran the effect. *)
Definition cleanup (render : Component) : Eff System unit :=
  stopAudio >>
  match movie render with
  | Some m =>
      if truthy (MovieData.videoUrl m)
      then in_world (URL.revokeObjectURL (MovieData.videoUrl m))
      else ret tt
  | None => ret tt
  end.

(** The effect has an empty dependency list: it runs after the first
    render only, and the cleanup React calls when the component goes is
    the one of that render, whose state cells hold their initial values. *)
Definition unmount : Eff System unit := cleanup initial_component.

(** A file the page hands to the browser for saving: the [href] and the
    [download] name of an anchor that was clicked. *)
Record Download := { href : jsstring; download : jsstring }.

(** What happens around the page, in the order it happens: an anchor is
    clicked, or the browser logs an event. *)
Inductive Moment :=
| Clicked (d : Download)
| Logged (e : Event).

(** The system and what has happened so far. *)
Record Document := { page : System; timeline : list Moment }.

(** A computation of the component inside the document; what it logs
    goes on the timeline. *)
Definition in_page {A} (m : Eff System A) : Eff Document A :=
  fun d =>
    let '(r, s) := m (page d) in
    (r, {| page := s;
           timeline := timeline d
                       ++ map Logged (drop (length (log (world (page d))))
                                        (log (world s))) |}).

(** An anchor with [href] and [download] set is appended to the body,
    clicked and removed. *)
Definition click_anchor (url name : jsstring) : Eff Document unit :=
  modify (fun d =>
    {| page := page d;
       timeline := timeline d
                   ++ [Clicked {| href := url; download := name |}] |}).

Section Download.

(** [audioBufferToWav] of [services/audioUtils.ts], taken as given: it
    turns a buffer into a blob. *)
Variable Blob : Type.
Variable audioBufferToWav : AudioBuffer -> Blob.

(** [URL.createObjectURL(blob)] *)
Definition createObjectURL_of (blob : Blob) : Eff World jsstring :=
  URL.createObjectURL.

Definition downloadMovie (render : Component) : Eff Document unit :=
  match movie render with
  | None => ret tt
  | Some m =>
      (* Download Video *)
      click_anchor (MovieData.videoUrl m)
        (lit "cinegen_video_" ++ MovieData.id m ++ lit ".mp4") >>
      (* Download Audio (WAV) *)
      match MovieData.audioBuffer m with
      | Some buffer =>
          let wavBlob := audioBufferToWav buffer in
          let* url := in_page (in_world (createObjectURL_of wavBlob)) in
          click_anchor url (lit "cinegen_audio_" ++ MovieData.id m ++ lit ".wav") >>
          in_page (in_world (URL.revokeObjectURL url))
      | None => ret tt
      end
  end.

End Download.

(** ** Vocabulary of the further properties *)

(** The system once [playAudio] has run for a movie with audio: the
    shared context is there and running, the node tracked before is
    stopped, a new source node and a new gain node are created, the gain
    is set for the mute flag of the render, the source is started, and
    both are tracked. *)
Definition played (muted : bool) (s : System) : System :=
  let w0 := set_window_audioContext (Some Running) (world s) in
  let w1 := match audioSourceRef (comp s) with
            | Some node => stopped_world node w0
            | None => w0
            end in
  let n := next_node (world s) in
  {| comp := set_gainNodeRef (Some (S n))
               (set_audioSourceRef (Some n)
                  (set_audioContextRef true (comp s)));
     world := emit (SourceStart n)
                (set_sources (insert n Playing)
                   (set_gains (insert (S n) (if muted then 0 else 1)%N)
                      (set_next_node (S (S n))
                         (set_gains (insert (S n) 1%N)
                            (set_next_node (S n)
                               (set_sources (insert n Unstarted) w1)))))) |}.

(** The gain node in [gainNodeRef], if any, has the gain that goes with
    the mute flag. *)
Definition gain_agrees (s : System) : Prop :=
  forall g, gainNodeRef (comp s) = Some g ->
            gains (world s) !! g = Some (if isMuted (comp s) then 0 else 1)%N.

(** What the mute button keeps in step: the gains, the tracked gain node
    and the mute flag. *)
Definition mix (s : System) : gmap nat N * option nat * bool :=
  (gains (world s), gainNodeRef (comp s), isMuted (comp s)).

(** Status, movie and credential flag. *)
Definition front (s : System) : GenerationStatus.t * option MovieData.t * bool :=
  (status (comp s), movie (comp s), apiKeyReady (comp s)).

(** [front] and the source nodes. *)
Definition face (s : System)
  : GenerationStatus.t * option MovieData.t * bool * gmap nat NodeState :=
  (front s, sources (world s)).

(** The statuses the component writes. *)
Definition written_status (st : GenerationStatus.t) : Prop :=
  st = GenerationStatus.mk step_idle None None
  \/ st = status_script
  \/ st = status_video
  \/ st = status_complete
  \/ exists msg, st = status_error msg.

(** Status, movie and audio fit together: the status has a shape the
    component writes, a status of ['complete'] has its movie on screen,
    a movie on screen has its audio, and without a movie nothing plays. *)
Definition page_ok (s : System) : Prop :=
  written_status (status (comp s))
  /\ (GenerationStatus.step (status (comp s)) = step_complete ->
      movie (comp s) <> None)
  /\ (forall m, movie (comp s) = Some m -> MovieData.audioBuffer m <> None)
  /\ (movie (comp s) = None -> silent s).

(** The credential check has answered, the user has typed an idea,
    generated a movie and pressed play. *)
Definition watching_trace : list Action :=
  [Check_settles; Type_idea cat_idea; Click_generate backend_ok;
   Script_settles 0; Join_settles 0; Click_play].


(** [gain_agrees], inside a handler of the render [r] that has not
    written the mute flag. *)
Definition gain_agrees_for (r : Component) (s : System) : Prop :=
  gain_agrees s /\ isMuted (comp s) = isMuted r.

(** No movie on screen and nothing playing. *)
Definition quiet_page (s : System) : Prop :=
  movie (comp s) = None /\ silent s.

(** A backend with another answer of [fetch]. *)
Definition with_fetch (o : Outcome Response) (b : Backend) : Backend :=
  {| API_KEY := API_KEY b;
     generateContent_text := generateContent_text b;
     generateVideos := generateVideos b;
     getVideosOperation := getVideosOperation b;
     fetch := fun _ => o;
     generateContent_audio := generateContent_audio b;
     decodeAudioData := decodeAudioData b;
     speech_settles_first := speech_settles_first b;
     Date_now := Date_now b |}.

(** The error [generateVideo] throws when the download is refused. *)
Definition download_refused (statusText : jsstring) : JsError :=
  Error (lit "Failed to download video: " ++ statusText).

(** The download link answers 403, with the reason phrase of that code. *)
Definition backend_download_forbidden : Backend :=
  with_fetch (Ok {| ok := false; statusText := lit "Forbidden";
                    blob := Ok tt |}) backend_ok.

(** The action is an edit of one of the three inputs. *)
Definition is_input (a : Action) : bool :=
  match a with
  | Type_idea _ | Pick_aspectRatio _ | Pick_voice _ => true
  | _ => false
  end.

(** The action is the settling of a promise that a run waits for. *)
Definition is_settling (a : Action) : bool :=
  match a with
  | Script_settles _ | Join_settles _ => true
  | _ => false
  end.

(** A change of the system that a computation does not see: made before
    or after it, the outcome and the state are the same. *)
Definition unseen {A} (f : System -> System) (m : Eff System A) : Prop :=
  forall s, m (f s) = (fst (m s), f (snd (m s))).

(** What an edit of an input does to the state cells. *)
Definition input_edit (g : Component -> Component) : Prop :=
  (exists text, g = set_idea text)
  \/ (exists a, g = set_aspectRatio a)
  \/ (exists v, g = set_voice v).

(** The user has typed an idea and clicked; the script is awaited. *)
Definition scripting_trace : list Action :=
  [Check_settles; Type_idea cat_idea; Click_generate backend_ok].

(** * Properties *)

(** ** Strings *)

Section Strings.

Lemma truthy_nil_iff (s : jsstring) : truthy s = false <-> s = [].
Proof. destruct s; simpl; split; congruence. Qed.

Lemma trimStart_blank (s : jsstring) : blank s = true -> trimStart s = [].
Proof.
  induction s as [|c s IH]; simpl; [reflexivity|].
  intros [Hc Hs]%andb_prop. rewrite Hc. auto.
Qed.

Lemma trimStart_head (s t : jsstring) (c : N) :
  trimStart s = c :: t -> is_whitespace c = false.
Proof.
  induction s as [|d s IH]; simpl; [discriminate|].
  destruct (is_whitespace d) eqn:Hd; [assumption|].
  intros [= -> _]. assumption.
Qed.

Lemma trimStart_nil (s : jsstring) : trimStart s = [] -> blank s = true.
Proof.
  induction s as [|c s IH]; simpl; [reflexivity|].
  destruct (is_whitespace c); [auto | discriminate].
Qed.

Lemma blank_app (s t : jsstring) : blank (s ++ t) = blank s && blank t.
Proof. apply forallb_app. Qed.

Lemma blank_rev (s : jsstring) : blank (rev s) = blank s.
Proof.
  induction s as [|c s IH]; simpl; [reflexivity|].
  rewrite blank_app, IH. simpl. rewrite andb_true_r. apply andb_comm.
Qed.

(** [s.trim()] is the empty string exactly when [s] is empty or made of
    whitespace only. *)
Lemma trim_nil_iff (s : jsstring) : trim s = [] <-> blank s = true.
Proof.
  unfold trim, trimEnd. split.
  - intros H. apply (f_equal (@rev N)) in H. rewrite rev_involutive in H.
    simpl in H. apply trimStart_nil in H. rewrite blank_rev in H.
    destruct (trimStart s) as [|c t] eqn:E; [now apply trimStart_nil|].
    apply trimStart_head in E. simpl in H. now rewrite E in H.
  - intros H. now rewrite (trimStart_blank s H).
Qed.

Lemma truthy_trim (s : jsstring) : truthy (trim s) = negb (blank s).
Proof.
  destruct (blank s) eqn:B.
  - apply trim_nil_iff in B. now rewrite B.
  - destruct (truthy (trim s)) eqn:T; [reflexivity|].
    apply truthy_nil_iff, trim_nil_iff in T. congruence.
Qed.

Lemma startsWith_iff (s needle : jsstring) :
  startsWith s needle = true <-> exists post, s = needle ++ post.
Proof.
  revert s. induction needle as [|n needle IH]; intros s; simpl.
  - destruct s; split; eauto.
  - destruct s as [|c s]; simpl.
    + split; [discriminate | intros [post [=]]].
    + rewrite andb_true_iff, N.eqb_eq, IH. split.
      * intros [-> [post ->]]. eauto.
      * intros [post [= -> ->]]. eauto.
Qed.

(** [includes] decides the occurrence of a substring. *)
Lemma includes_iff (s needle : jsstring) :
  includes s needle = true <-> substring needle s.
Proof.
  unfold substring. induction s as [|c s IH].
  - cbn [includes]. rewrite orb_false_r, startsWith_iff. split.
    + intros [post H]. exists [], post. exact H.
    + intros (pre & post & H). destruct pre as [|? ?]; [|discriminate].
      eauto.
  - cbn [includes]. rewrite orb_true_iff, startsWith_iff, IH. split.
    + intros [[post H] | (pre & post & H)].
      * exists [], post. exact H.
      * exists (c :: pre), post. simpl. now rewrite H.
    + intros (pre & post & H). destruct pre as [|d pre].
      * left. eauto.
      * right. injection H as -> H. eauto.
Qed.

(** The text shown for a failure without a message carries no marker. *)
Lemma fallback_not_api_key_error :
  is_api_key_error (lit "An unexpected error occurred.") = false.
Proof. reflexivity. Qed.

End Strings.

(** ** Effects of the building blocks *)

Ltac eff_unfold :=
  unfold handle, exec, in_world, use, try_catch, bind, ret, gets, modify,
    throw, await in *.

Section Playback.

(** [stop()] in a [try] with an empty [catch] always returns. *)
Lemma stop_absorbed (node : nat) (s : System) :
  try_catch (in_world (AudioContext.stop node)) (fun _ => ret tt) s
  = (Ok tt, {| comp := comp s; world := stopped_world node (world s) |}).
Proof.
  unfold AudioContext.stop, stopped_world. eff_unfold.
  destruct (sources (world s) !! node) as [[]|]; simpl; try reflexivity.
  destruct (rejects_double_stop (world s)); reflexivity.
Qed.

Lemma stopAudio_eq (s : System) :
  stopAudio s
  = (Ok tt,
     {| comp := set_audioSourceRef None (comp s);
        world := match audioSourceRef (comp s) with
                 | Some node => stopped_world node (world s)
                 | None => world s
                 end |}).
Proof.
  unfold stopAudio. unfold use, bind at 1, gets. simpl.
  destruct (audioSourceRef (comp s)) as [node|] eqn:E.
  - unfold bind. rewrite stop_absorbed. reflexivity.
  - destruct s as [c w]. destruct c. simpl in *. subst. reflexivity.
Qed.

Lemma stopped_world_inactive (node : nat) (w : World) :
  sources w !! node <> Some Playing -> stopped_world node w = w.
Proof.
  unfold stopped_world. destruct (sources w !! node) as [[]|]; congruence.
Qed.

(** [stopAudio] never throws. *)
Lemma stopAudio_returns (s : System) : fst (stopAudio s) = Ok tt.
Proof. now rewrite stopAudio_eq. Qed.

End Playback.

(** C7. [stopAudio] on a handle that is not playing (none is tracked, or
    the tracked node was never started or is already stopped) returns
    without an exception, whether or not the browser's [stop()] throws on
    such a node, and changes nothing but [audioSourceRef], which it
    clears. *)
Theorem stopAudio_inactive_handle (s : System) :
  inactive_handle s ->
  stopAudio s
  = (Ok tt, {| comp := set_audioSourceRef None (comp s); world := world s |}).
Proof.
  intros H. rewrite stopAudio_eq. f_equal. f_equal.
  destruct (audioSourceRef (comp s)) as [node|] eqn:E; [|reflexivity].
  apply stopped_world_inactive, H, E.
Qed.

(** A browser whose [stop()] rejects a node that is over, a ref that still
    holds such a node: the primitive throws, [stopAudio] does not. *)
Lemma stopAudio_inactive_handle_witness :
  inactive_handle (audio_over true)
  /\ fst (AudioContext.stop 0 (world (audio_over true))) = Throw InvalidStateError
  /\ stopAudio (audio_over true)
     = (Ok tt, {| comp := set_audioSourceRef None (comp (audio_over true));
                  world := world (audio_over true) |}).
Proof.
  assert (H : inactive_handle (audio_over true)).
  { intros node R. vm_compute in R. injection R as <-.
    vm_compute. discriminate. }
  split; [exact H|]. split; [vm_compute; reflexivity|].
  apply (stopAudio_inactive_handle (audio_over true) H).
Defined.

(** C8. Toggling mute flips [isMuted]; the gain node in [gainNodeRef], if
    there is one, gets gain 0 when the new state is muted and 1 otherwise;
    no source node is stopped, started or created and the tracked handles
    stay the same; the element in [videoRef], if any, gets the new flag
    as its [muted]. *)
Theorem toggleMute_sets_live_gain (s : System) :
  let s' := exec (handle toggleMute) s in
  let now_muted := negb (isMuted (comp s)) in
  fst (handle toggleMute s) = Ok tt
  /\ isMuted (comp s') = now_muted
  /\ (forall g, gainNodeRef (comp s) = Some g ->
        gains (world s') !! g = Some (if now_muted then 0 else 1)%N)
  /\ (gainNodeRef (comp s) = None -> gains (world s') = gains (world s))
  /\ sources (world s') = sources (world s)
  /\ next_node (world s') = next_node (world s)
  /\ log (world s') = log (world s)
  /\ audioSourceRef (comp s') = audioSourceRef (comp s)
  /\ gainNodeRef (comp s') = gainNodeRef (comp s)
  /\ videoRef (comp s')
     = (fun v => {| muted := now_muted; paused := paused v;
                    currentTime := currentTime v |}) <$> videoRef (comp s).
Proof.
  destruct s as [c w]. unfold toggleMute, setIsMuted, video_set_muted, video_set,
    AudioContext.set_gain_value.
  eff_unfold. simpl.
  destruct (gainNodeRef c) as [g|] eqn:G; destruct (videoRef c) as [v|] eqn:V;
    simpl; rewrite ?V; simpl.
  all: repeat split; try congruence.
  all: try (intros ? [= <-]; apply lookup_insert_eq).
  all: rewrite V; reflexivity.
Qed.

(** Muting while the first movie plays: node 0 keeps playing, the gain of
    node 1 drops to 0, the element is muted. *)
Lemma toggleMute_sets_live_gain_witness :
  let s := playing true in
  let s' := exec (handle toggleMute) s in
  gainNodeRef (comp s) = Some 1
  /\ gains (world s') !! 1 = Some 0%N
  /\ sources (world s') !! 0 = Some Playing
  /\ isMuted (comp s') = true.
Proof.
  destruct (toggleMute_sets_live_gain (playing true))
    as (_ & Hm & Hg & _ & Hs & _).
  split; [reflexivity|]. split; [apply Hg; reflexivity|].
  split; [rewrite Hs; reflexivity | exact Hm].
Defined.

(** C6. With an idea that is empty or made of whitespace only,
    [generateMovie] returns at once: the component (status, movie,
    credential flag, playback state, refs) and the browser, with its log
    of backend calls, are what they were.  The same holds for a click on
    the button. *)
Theorem generateMovie_blank_idea (b : Backend) (s : System) :
  blank (idea (comp s)) = true ->
  handle (fun render => generateMovie render b) s = (Ok tt, s)
  /\ click_generate b s = (Ok tt, s).
Proof.
  intros H. unfold click_generate, handle, generateMovie.
  rewrite truthy_trim, H. simpl.
  split; [reflexivity|]. now destruct (generate_disabled (comp s)).
Qed.

(** An idea of a space, a tab and a no-break space, typed over a finished
    movie: nothing moves. *)
Lemma generateMovie_blank_idea_witness :
  let s := on_comp (set_idea [32; 9; 160]%N) (with_movie true) in
  blank (idea (comp s)) = true
  /\ handle (fun render => generateMovie render backend_ok) s = (Ok tt, s)
  /\ click_generate backend_ok s = (Ok tt, s).
Proof.
  intros s. split; [reflexivity|].
  apply (generateMovie_blank_idea backend_ok s). reflexivity.
Defined.

(** ** The requests *)

Section Requests.

Variable b : Backend.

Lemma generateScript_eq (idea : jsstring) (w : World) :
  geminiService.generateScript b idea w
  = (Outcome_map geminiService.script_of_response
       (generateContent_text b (geminiService.script_prompt idea)),
     emit (GenerateScript idea) w).
Proof.
  unfold geminiService.generateScript. eff_unfold. simpl.
  destruct (generateContent_text b _); reflexivity.
Qed.

(** A video request logs itself and, at most, takes an object URL. *)
Lemma generateVideo_world (idea : jsstring) (a : AspectRatio) (w : World) :
  exists n,
    snd (geminiService.generateVideo b idea a w)
    = set_next_blob n (emit (GenerateVideo idea a) w).
Proof.
  unfold geminiService.generateVideo, URL.createObjectURL. eff_unfold. simpl.
  assert (E : forall w0 : World, w0 = set_next_blob (next_blob w0) w0)
    by (now intros []).
  destruct (generateVideos b idea a) as [op| |]; simpl; eauto.
  destruct (geminiService.poll _ op) as [op'| |]; simpl; eauto.
  destruct (uri op') as [u|]; simpl; eauto.
  destruct (truthy u); simpl; eauto.
  destruct (fetch b _) as [res| |]; simpl; eauto.
  destruct (ok res); simpl; eauto.
  destruct (blob res) as [[]| |]; simpl; eauto.
Qed.

(** Whether a video request is fulfilled, rejected or left hanging does
    not depend on the browser. *)
Lemma generateVideo_settles (idea : jsstring) (a : AspectRatio) (w w' : World) :
  Outcome_map (fun _ => tt) (fst (geminiService.generateVideo b idea a w))
  = Outcome_map (fun _ => tt) (fst (geminiService.generateVideo b idea a w')).
Proof.
  unfold geminiService.generateVideo, URL.createObjectURL. eff_unfold. simpl.
  destruct (generateVideos b idea a) as [op| |]; simpl; auto.
  destruct (geminiService.poll _ op) as [op'| |]; simpl; auto.
  destruct (uri op') as [u|]; simpl; auto.
  destruct (truthy u); simpl; auto.
  destruct (fetch b _) as [res| |]; simpl; auto.
  destruct (ok res); simpl; auto.
  destruct (blob res) as [[]| |]; simpl; auto.
Qed.

(** A speech request logs itself and, at most, sets up the audio context. *)
Lemma generateSpeech_world (text : jsstring) (v : VoiceName) (w : World) :
  exists ctx,
    snd (geminiService.generateSpeech b text v w)
    = set_window_audioContext ctx (emit (GenerateSpeech text v) w).
Proof.
  unfold geminiService.generateSpeech, geminiService.getAudioContext.
  eff_unfold. simpl.
  destruct (generateContent_audio b text v) as [[data|]| |]; simpl;
    try (eexists; reflexivity).
  destruct (truthy data); simpl; try (eexists; reflexivity).
  destruct w as [? ? ? ? ctx fresh ? ?]; simpl.
  destruct ctx as [[]|]; simpl; try destruct fresh; simpl;
    destruct (decodeAudioData b data 24000 1); simpl; eexists; reflexivity.
Qed.

Lemma generateSpeech_outcome (text : jsstring) (v : VoiceName) (w w' : World) :
  fst (geminiService.generateSpeech b text v w)
  = fst (geminiService.generateSpeech b text v w').
Proof.
  unfold geminiService.generateSpeech, geminiService.getAudioContext.
  eff_unfold. simpl.
  destruct (generateContent_audio b text v) as [[data|]| |]; simpl; auto.
  destruct (truthy data); simpl; auto.
  destruct w as [? ? ? ? ctx fresh ? ?], w' as [? ? ? ? ctx' fresh' ? ?]; simpl.
  destruct ctx as [[]|], ctx' as [[]|]; simpl;
    try destruct fresh; try destruct fresh'; simpl;
    destruct (decodeAudioData b data 24000 1); reflexivity.
Qed.

Lemma rejects_video_iff (idea : jsstring) (a : AspectRatio) (w : World) :
  rejects (geminiService.generateVideo b idea a)
  <-> is_throw (fst (geminiService.generateVideo b idea a w)) = true.
Proof.
  split; [intros H; apply H|]. intros H w'.
  pose proof (generateVideo_settles idea a w w') as E.
  destruct (fst (geminiService.generateVideo b idea a w)),
    (fst (geminiService.generateVideo b idea a w')); simpl in *; congruence.
Qed.


Lemma rejects_speech_iff (text : jsstring) (v : VoiceName) (w : World) :
  rejects (geminiService.generateSpeech b text v)
  <-> is_throw (fst (geminiService.generateSpeech b text v w)) = true.
Proof.
  split; [intros H; apply H|]. intros H w'.
  now rewrite (generateSpeech_outcome text v w' w).
Qed.


End Requests.

(** ** One run of the pipeline *)

Section Run.

Variables (render : Component) (b : Backend).

Lemma generateMovie_reset_eq (s : System) :
  generateMovie_reset render s = (Ok tt, reset_system render s).
Proof.
  unfold generateMovie_reset, reset_system, setMovie, setIsPlaying,
    URL.revokeObjectURL.
  destruct (movie render) as [m|]; unfold bind at 1.
  - unfold bind at 1. unfold in_world at 1, modify at 1. simpl.
    unfold bind at 1. unfold modify, on_comp. simpl.
    rewrite stopAudio_eq. reflexivity.
  - unfold bind at 1. unfold ret, modify, on_comp. simpl.
    rewrite stopAudio_eq. reflexivity.
Qed.

Lemma generateMovie_catch_eq (err : JsError) (s : System) :
  generateMovie_catch err s = (catch_outcome err, on_comp (caught err) s).
Proof.
  unfold generateMovie_catch, caught, catch_outcome, setStatus,
    setApiKeyReady, on_comp.
  destruct err as [|[[m|]|]]; eff_unfold; cbn [error_message readable failure_text];
    try (now destruct (is_api_key_error _));
    now destruct s.
Qed.

Lemma filming_fst (script : jsstring) (w : World) :
  fst (filming render b script w)
  = Promise_all (speech_settles_first b)
      (fst (geminiService.generateVideo b (idea render) (aspectRatio render) w))
      (fst (geminiService.generateSpeech b script (voice render)
              (snd (geminiService.generateVideo b (idea render)
                      (aspectRatio render) w)))).
Proof.
  unfold filming, await_all.
  destruct (geminiService.generateVideo _ _ _ _) as [ov w1]. simpl.
  now destruct (geminiService.generateSpeech _ _ _ _) as [os w2].
Qed.

Lemma filming_snd (script : jsstring) (w : World) :
  snd (filming render b script w)
  = snd (geminiService.generateSpeech b script (voice render)
           (snd (geminiService.generateVideo b (idea render)
                   (aspectRatio render) w))).
Proof.
  unfold filming, await_all.
  destruct (geminiService.generateVideo _ _ _ _) as [ov w1]. simpl.
  now destruct (geminiService.generateSpeech _ _ _ _) as [os w2].
Qed.

(** The [try] block, by cases on what the requests answer. *)
Lemma generateMovie_try_eq (s : System) :
  generateMovie_try render b s
  = let w1 := emit (GenerateScript (idea render)) (world s) in
    let c1 := set_status status_script (comp s) in
    match generateContent_text b (geminiService.script_prompt (idea render)) with
    | Throw e => (Throw e, {| comp := c1; world := w1 |})
    | Never => (Never, {| comp := c1; world := w1 |})
    | Ok text =>
        let script := geminiService.script_of_response text in
        let c2 := set_status status_video c1 in
        let r := filming render b script w1 in
        match fst r with
        | Throw e => (Throw e, {| comp := c2; world := snd r |})
        | Never => (Never, {| comp := c2; world := snd r |})
        | Ok result =>
            (Ok tt,
             {| comp := set_status status_complete
                          (show_movie (assemble render b script result) c2);
                world := snd r |})
        end
    end.
Proof.
  unfold generateMovie_try, filming.
  unfold setStatus, setMovie. unfold bind at 1. unfold modify at 1. simpl.
  unfold bind at 1. unfold in_world at 1. rewrite generateScript_eq. simpl.
  destruct (generateContent_text b _) as [text| |]; simpl; try reflexivity.
  unfold bind at 1. unfold modify at 1. simpl.
  unfold bind at 1. unfold in_world at 1. simpl.
  destruct (await_all _ _ _ _) as [[[url buf]| |] w2]; simpl; reflexivity.
Qed.

(** The whole function, once the guard is passed. *)
Lemma generateMovie_eq (s : System) :
  truthy (trim (idea render)) = true ->
  generateMovie render b s
  = match generateMovie_try render b (reset_system render s) with
    | (Throw e, s1) => (catch_outcome e, on_comp (caught e) s1)
    | r => r
    end.
Proof.
  intros G. unfold generateMovie. rewrite G. simpl.
  unfold bind. rewrite generateMovie_reset_eq. unfold try_catch.
  destruct (generateMovie_try render b _) as [[[]| |] s1]; try reflexivity.
  apply generateMovie_catch_eq.
Qed.

End Run.

(** ** The claims on a run *)

Section RunCases.

Variables (b : Backend) (s : System).
Hypothesis guard : truthy (trim (idea (comp s))) = true.

Let render := comp s.
Let s0 := reset_system render s.
Let c1 := set_status status_script (comp s0).
Let c2 := set_status status_video c1.
Let w1 := emit (GenerateScript (idea render)) (world s0).

(** The component at the end of a run, by cases on the answers. *)
Lemma generated_comp :
  comp (generated b s)
  = match generateContent_text b (geminiService.script_prompt (idea render)) with
    | Throw e => caught e c1
    | Never => c1
    | Ok text =>
        let script := geminiService.script_of_response text in
        match fst (filming render b script w1) with
        | Ok result =>
            set_status status_complete
              (show_movie (assemble render b script result) c2)
        | Throw e => caught e c2
        | Never => c2
        end
    end.
Proof.
  unfold generated, handle, exec. fold render.
  rewrite generateMovie_eq, generateMovie_try_eq by assumption. cbv zeta.
  fold s0 c1 c2 w1.
  destruct (generateContent_text b _) as [text| |]; try reflexivity.
  destruct (fst (filming render b _ w1)); reflexivity.
Qed.

(** The browser at the end of a run. *)
Lemma generated_world :
  world (generated b s)
  = match generateContent_text b (geminiService.script_prompt (idea render)) with
    | Ok text => snd (filming render b (geminiService.script_of_response text) w1)
    | _ => w1
    end.
Proof.
  unfold generated, handle, exec. fold render.
  rewrite generateMovie_eq, generateMovie_try_eq by assumption. cbv zeta.
  fold s0 c1 c2 w1.
  destruct (generateContent_text b _) as [text| |]; try reflexivity.
  destruct (fst (filming render b _ w1)); reflexivity.
Qed.

(** What reaches the [catch] block. *)
Lemma run_throws_iff (err : JsError) :
  run_throws b s err
  <-> generateContent_text b (geminiService.script_prompt (idea render)) = Throw err
      \/ exists text,
           generateContent_text b (geminiService.script_prompt (idea render)) = Ok text
           /\ fst (filming render b (geminiService.script_of_response text) w1)
              = Throw err.
Proof.
  unfold run_throws. fold render. rewrite generateMovie_try_eq. cbv zeta.
  fold s0 c1 c2 w1.
  destruct (generateContent_text b _) as [text|e|]; simpl.
  - destruct (fst (filming render b _ w1)) as [result|e|] eqn:F; simpl;
      (split; [intros [= <-] | intros [[=] | (text' & [= <-] & F')]]);
      try (right; exists text; split; [reflexivity | exact F]);
      congruence.
  - split.
    + intros [= ->]. now left.
    + intros [[= ->] | (? & [=] & _)]. reflexivity.
  - split; [discriminate | intros [[=] | (? & [=] & _)]].
Qed.

End RunCases.

Section ResetAndCatch.

Variable s : System.

Lemma reset_clears_movie : movie (comp (reset_system (comp s) s)) = None.
Proof.
  unfold reset_system. destruct (movie (comp s)) eqn:E; simpl; [reflexivity|].
  exact E.
Qed.

Lemma reset_apiKeyReady (render : Component) :
  apiKeyReady (comp (reset_system render s)) = apiKeyReady (comp s).
Proof. unfold reset_system. now destruct (movie render). Qed.

Lemma reset_isPlaying (render : Component) :
  isPlaying (comp (reset_system render s)) = false.
Proof. reflexivity. Qed.


Lemma reset_audioSourceRef (render : Component) :
  audioSourceRef (comp (reset_system render s)) = None.
Proof. reflexivity. Qed.

End ResetAndCatch.

Lemma caught_movie (e : JsError) (c : Component) : movie (caught e c) = movie c.
Proof.
  unfold caught. destruct (readable e); [|reflexivity].
  now destruct (is_api_key_error _).
Qed.

(** A reason the [catch] block can read ends in an error status ... *)
Lemma caught_status (e : JsError) (c : Component) :
  readable e = true -> exists msg, status (caught e c) = status_error msg.
Proof.
  unfold caught. intros ->. destruct (is_api_key_error _); simpl; eauto.
Qed.

(** ... and on any other the block throws before it has written
    anything. *)
Lemma caught_unreadable (e : JsError) (c : Component) :
  readable e = false -> caught e c = c.
Proof. unfold caught. now intros ->. Qed.



Lemma caught_audioSourceRef (e : JsError) (c : Component) :
  audioSourceRef (caught e c) = audioSourceRef c.
Proof.
  unfold caught. destruct (readable e); [|reflexivity].
  now destruct (is_api_key_error _).
Qed.


Lemma Promise_all_throw {A B} (sf : bool) (p : Outcome A) (q : Outcome B) :
  is_throw p = true \/ is_throw q = true ->
  is_throw (Promise_all sf p q) = true.
Proof. destruct p, q; simpl; intros [H|H]; try discriminate; reflexivity. Qed.

(** The reason of a rejected join is the reason of one of the two. *)
Lemma Promise_all_reason {A B} (sf : bool) (p : Outcome A) (q : Outcome B) e :
  Promise_all sf p q = Throw e -> p = Throw e \/ q = Throw e.
Proof.
  destruct p, q; simpl; try discriminate; try (intros [= <-]; auto).
  destruct sf; auto.
Qed.

(** The join of the filming step is rejected as soon as one of the two
    requests is. *)
Lemma filming_rejected (render : Component) (b : Backend) (script : jsstring)
    (w : World) :
  rejects (geminiService.generateVideo b (idea render) (aspectRatio render))
  \/ rejects (geminiService.generateSpeech b script (voice render)) ->
  is_throw (fst (filming render b script w)) = true.
Proof.
  intros H. rewrite filming_fst. apply Promise_all_throw.
  destruct H as [H|H]; [left | right]; apply H.
Qed.



Section RunFacts.

Variables (b : Backend) (s : System).
Hypothesis guard : truthy (trim (idea (comp s))) = true.

(** A movie at the end of a run is the one the run assembled. *)
Lemma generated_movie (m : MovieData.t) :
  movie (comp (generated b s)) = Some m ->
  exists text result,
    generateContent_text b (geminiService.script_prompt (idea (comp s))) = Ok text
    /\ fst (filming (comp s) b (geminiService.script_of_response text)
              (emit (GenerateScript (idea (comp s)))
                 (world (reset_system (comp s) s)))) = Ok result
    /\ m = assemble (comp s) b (geminiService.script_of_response text) result.
Proof.
  pose proof (reset_clears_movie s) as R.
  rewrite (generated_comp b s guard).
  destruct (generateContent_text b _) as [text|e|].
  - cbv zeta. destruct (fst (filming _ _ _ _)) as [result|e|] eqn:F.
    + intros [= <-]. eauto.
    + rewrite caught_movie. intros H.
      change (movie (comp (reset_system (comp s) s)) = Some m) in H. congruence.
    + intros H.
      change (movie (comp (reset_system (comp s) s)) = Some m) in H. congruence.
  - rewrite caught_movie. intros H.
    change (movie (comp (reset_system (comp s) s)) = Some m) in H. congruence.
  - intros H.
    change (movie (comp (reset_system (comp s) s)) = Some m) in H. congruence.
Qed.

(** A rejected filming request ends the run without movie: in an error
    status when the [catch] block can read the reason, in the status of
    the filming step when it cannot. *)
Lemma rejected_request_no_movie (text : option jsstring) :
  generateContent_text b (geminiService.script_prompt (idea (comp s))) = Ok text ->
  rejects (geminiService.generateVideo b (idea (comp s)) (aspectRatio (comp s)))
  \/ rejects (geminiService.generateSpeech b
                (geminiService.script_of_response text) (voice (comp s))) ->
  movie (comp (generated b s)) = None
  /\ exists e,
       run_throws b s e
       /\ (readable e = true ->
           exists msg, status (comp (generated b s)) = status_error msg)
       /\ (readable e = false ->
           status (comp (generated b s)) = status_video).
Proof.
  intros T H. rewrite (generated_comp b s guard), T. cbv zeta.
  set (w1 := emit _ _).
  pose proof (filming_rejected (comp s) b _ w1 H) as F.
  destruct (fst (filming _ _ _ w1)) as [result|e|] eqn:E; try discriminate.
  rewrite caught_movie. split; [apply reset_clears_movie|].
  exists e. split; [|split].
  - apply (run_throws_iff b s e). right. exists text. split; [exact T|].
    exact E.
  - apply caught_status.
  - intros U. now rewrite (caught_unreadable e _ U).
Qed.


End RunFacts.




(** ** Classification of failures *)

Lemma is_api_key_error_iff (msg : jsstring) :
  is_api_key_error msg = true <-> authorization_marker msg.
Proof.
  unfold is_api_key_error, authorization_marker.
  rewrite !orb_true_iff, !includes_iff. tauto.
Qed.

Lemma not_api_key_error_iff (msg : jsstring) :
  is_api_key_error msg = false <-> ~ authorization_marker msg.
Proof.
  rewrite <- is_api_key_error_iff. now destruct (is_api_key_error msg).
Qed.

(** A message that is there and not empty is the failure text;
    otherwise the fixed text stands in. *)
Lemma failure_text_raw (err : JsError) (m : jsstring) :
  err = Error m -> m <> [] -> failure_text err = m.
Proof. intros -> H. now destruct m. Qed.

Lemma failure_text_fallback (err : JsError) :
  err = Thrown None \/ err = Error [] ->
  failure_text err = lit "An unexpected error occurred.".
Proof. now intros [-> | ->]. Qed.

Lemma caught_classified (err : JsError) (c : Component) :
  readable err = true ->
  (authorization_marker (failure_text err) ->
   status (caught err c) = status_error api_key_error
   /\ apiKeyReady (caught err c) = false)
  /\ (~ authorization_marker (failure_text err) ->
      status (caught err c) = status_error (failure_text err)
      /\ apiKeyReady (caught err c) = apiKeyReady c).
Proof.
  unfold caught. intros ->. split.
  - intros H%is_api_key_error_iff. now rewrite H.
  - intros H%not_api_key_error_iff. now rewrite H.
Qed.

(** Where a run that throws ends. *)
Lemma generated_caught (b : Backend) (s : System) (err : JsError) :
  truthy (trim (idea (comp s))) = true ->
  run_throws b s err ->
  exists c, comp (generated b s) = caught err c
            /\ apiKeyReady c = apiKeyReady (comp s).
Proof.
  intros G H. rewrite (generated_comp b s G).
  apply run_throws_iff in H as [T | (text & T & F)]; rewrite T; cbv zeta.
  - eexists. split; [reflexivity|]. apply reset_apiKeyReady.
  - rewrite F. eexists. split; [reflexivity|]. apply reset_apiKeyReady.
Qed.

(** C2, counterexample.  The script request is rejected with an [Error]
    whose message is the empty string: no marker in it, yet the error
    text of the status is not that message but the fixed fallback. *)
Lemma raw_message_counterexample :
  let err := Error [] in
  let b := backend_script_fails err in
  let s := ready_system true cat_idea in
  run_throws b s err
  /\ err = Thrown (Some (Text []))
  /\ is_api_key_error [] = false
  /\ status (comp (generated b s))
     = status_error (lit "An unexpected error occurred.")
  /\ ~ raw_message_always_surfaced.
Proof.
  intros err b s.
  assert (R : run_throws b s err) by reflexivity.
  repeat split; try reflexivity; try exact R.
  intros claim.
  destruct (claim b s err [] eq_refl R eq_refl eq_refl) as [H _].
  vm_compute in H. discriminate H.
Qed.

(** C2, amended.  When a run throws into the [catch] block a reason
    [err] that the block can read (not [null] or [undefined], its message
    missing or a string), let the failure text be the message of [err],
    or the fixed text "An unexpected error occurred." if [err] has no
    message or an empty one.  If the failure text contains "Requested
    entity was not found", "403" or "401", the status becomes the error
    asking to re-select the key and the credential flag becomes false;
    otherwise the status becomes the error with the failure text and the
    credential flag keeps its value.  A message that is present and not
    empty is surfaced as it is. *)
Theorem failure_classification (b : Backend) (s : System) (err : JsError) :
  let msg := failure_text err in
  truthy (trim (idea (comp s))) = true ->
  run_throws b s err ->
  readable err = true ->
  (authorization_marker msg ->
   status (comp (generated b s)) = status_error api_key_error
   /\ apiKeyReady (comp (generated b s)) = false)
  /\ (~ authorization_marker msg ->
      status (comp (generated b s)) = status_error msg
      /\ apiKeyReady (comp (generated b s)) = apiKeyReady (comp s))
  /\ (forall m, err = Error m -> m <> [] -> msg = m)
  /\ (err = Thrown None \/ err = Error [] ->
      msg = lit "An unexpected error occurred." /\ ~ authorization_marker msg).
Proof.
  intros msg G H U.
  destruct (generated_caught b s err G H) as (c & -> & A).
  destruct (caught_classified err c U) as [Hyes Hno]. rewrite A in Hno.
  repeat split; try (apply Hyes; assumption); try (apply Hno; assumption).
  - apply failure_text_raw.
  - now apply failure_text_fallback.
  - subst msg. rewrite (failure_text_fallback err) by assumption.
    now apply not_api_key_error_iff.
Qed.

(** The video request answers 403: the status asks for the key again and
    the credential flag is withdrawn. *)
Lemma failure_classification_witness :
  let err := Error (lit "got status: 403 Forbidden") in
  let s := ready_system true cat_idea in
  apiKeyReady (comp s) = true
  /\ status (comp (generated backend_video_403 s)) = status_error api_key_error
  /\ apiKeyReady (comp (generated backend_video_403 s)) = false.
Proof.
  intros err s. split; [reflexivity|].
  assert (G : truthy (trim (idea (comp s))) = true) by reflexivity.
  assert (R : run_throws backend_video_403 s err) by reflexivity.
  destruct (failure_classification backend_video_403 s err G R eq_refl)
    as [H _].
  apply H. apply is_api_key_error_iff. reflexivity.
Defined.

(** ** Playback state across generations *)




(** ** Speech failures *)

(** C4, counterexample: no run is as C4 describes.  A rejected speech
    request rejects the join, and the run ends without movie. *)
Lemma no_movie_without_audio : ~ movie_without_audio_exposed.
Proof.
  intros (b & s & text & m & G & T & _ & S & M & _).
  destruct (rejected_request_no_movie b s G text T (or_intror S)) as [N _].
  congruence.
Qed.

(** C4, amended.  In every run in which speech synthesis is rejected, no
    movie is exposed, the run ends in the [catch] block, and the status
    is an error whenever the block can read the reason of the failure;
    and every movie a run ends with has an audio buffer. *)
Theorem speech_failure_exposes_no_movie
    (b : Backend) (s : System) (text : option jsstring) :
  truthy (trim (idea (comp s))) = true ->
  generateContent_text b (geminiService.script_prompt (idea (comp s))) = Ok text ->
  (rejects (geminiService.generateSpeech b
              (geminiService.script_of_response text) (voice (comp s))) ->
   movie (comp (generated b s)) = None
   /\ exists e,
        run_throws b s e
        /\ (readable e = true ->
            exists msg, status (comp (generated b s)) = status_error msg))
  /\ (forall m, movie (comp (generated b s)) = Some m ->
                exists buffer, MovieData.audioBuffer m = Some buffer).
Proof.
  intros G T. split.
  - intros S.
    destruct (rejected_request_no_movie b s G text T (or_intror S))
      as (M & e & R & E & _).
    split; [exact M|]. exists e. split; [exact R | exact E].
  - intros m Hm.
    destruct (generated_movie b s G m Hm) as (text' & result & _ & _ & ->).
    simpl. eauto.
Qed.

(** The speech model returns no audio while script and video succeed:
    [generateSpeech] throws its own error, which the [catch] block can
    read, and the run ends without movie and in an error status. *)
Lemma speech_failure_exposes_no_movie_witness :
  let s := ready_system true cat_idea in
  fulfils (geminiService.generateVideo backend_no_audio (idea (comp s))
             (aspectRatio (comp s)))
  /\ run_throws backend_no_audio s
       (Error (lit "No audio data returned from TTS model."))
  /\ movie (comp (generated backend_no_audio s)) = None
  /\ exists msg, status (comp (generated backend_no_audio s)) = status_error msg.
Proof.
  intros s. split; [intros w; reflexivity|].
  assert (G : truthy (trim (idea (comp s))) = true) by reflexivity.
  assert (R0 : run_throws backend_no_audio s
                 (Error (lit "No audio data returned from TTS model.")))
    by reflexivity.
  split; [exact R0|].
  destruct (speech_failure_exposes_no_movie backend_no_audio s
              (Some (lit "A cat cruises down the boardwalk, tail high."))
              G eq_refl) as [H _].
  destruct H as (M & e & R & E); [intros w; reflexivity|].
  split; [exact M|]. apply E.
  assert (Q : Throw e
              = Throw (Error (lit "No audio data returned from TTS model."))
              :> Outcome unit)
    by (rewrite <- R; exact R0).
  now injection Q as ->.
Defined.

(** ** The script *)

Lemma script_of_response_blank (text : option jsstring) :
  text = None \/ (exists t, text = Some t /\ blank t = true) ->
  geminiService.script_of_response text = lit "Enjoy this scene.".
Proof.
  intros [-> | (t & -> & B)]; [reflexivity|].
  unfold geminiService.script_of_response, or_else.
  now rewrite truthy_trim, B.
Qed.

Lemma script_of_response_text (t : jsstring) :
  blank t = false -> geminiService.script_of_response (Some t) = trim t.
Proof.
  intros B. unfold geminiService.script_of_response, or_else.
  now rewrite truthy_trim, B.
Qed.

Lemma script_of_response_nonempty (text : option jsstring) :
  geminiService.script_of_response text <> [].
Proof.
  destruct text as [t|]; [|discriminate].
  unfold geminiService.script_of_response, or_else.
  destruct (truthy (trim t)) eqn:E; [|discriminate].
  intros H. rewrite H in E. discriminate.
Qed.

(** C10. Whatever the text model answers, the script [generateScript]
    returns is not empty: it is the trimmed text of the response, or the
    literal "Enjoy this scene." when that text is missing, empty or made
    of whitespace only; and [generateScript] does return it when the
    request is answered.  Hence the script of a movie assembled by a run
    is never empty. *)
Theorem script_never_empty (b : Backend) :
  (forall text, geminiService.script_of_response text <> [])
  /\ (forall text,
        text = None \/ (exists t, text = Some t /\ blank t = true) ->
        geminiService.script_of_response text = lit "Enjoy this scene.")
  /\ (forall t, blank t = false ->
        geminiService.script_of_response (Some t) = trim t)
  /\ (forall idea w text,
        generateContent_text b (geminiService.script_prompt idea) = Ok text ->
        fst (geminiService.generateScript b idea w)
        = Ok (geminiService.script_of_response text))
  /\ (forall s m,
        truthy (trim (idea (comp s))) = true ->
        movie (comp (generated b s)) = Some m ->
        MovieData.script m <> []).
Proof.
  split; [exact script_of_response_nonempty|].
  split; [exact script_of_response_blank|].
  split; [exact script_of_response_text|].
  split.
  - intros idea w text T. rewrite generateScript_eq. simpl. now rewrite T.
  - intros s m G Hm.
    destruct (generated_movie b s G m Hm) as (text & result & _ & _ & ->).
    apply script_of_response_nonempty.
Qed.

(** The text model answers with spaces only: the movie's script is the
    fallback line. *)
Lemma script_never_empty_witness :
  let b := with_text (Ok (Some (lit "   "))) backend_ok in
  let s := ready_system true cat_idea in
  (MovieData.script <$> movie (comp (generated b s)))
  = Some (lit "Enjoy this scene.")
  /\ forall m, movie (comp (generated b s)) = Some m -> MovieData.script m <> [].
Proof.
  intros b s. split; [reflexivity|].
  destruct (script_never_empty b) as (_ & _ & _ & _ & H).
  intros m. apply H. reflexivity.
Defined.

(** ** What a new generation releases *)

Section Release.

Lemma log_emit (e : Event) (w : World) : log (emit e w) = log w ++ [e].
Proof. reflexivity. Qed.

Lemma log_stopped_world (node : nat) (w : World) :
  log (stopped_world node w)
  = log w ++ match sources w !! node with
             | Some Playing => [SourceStop node]
             | _ => []
             end.
Proof.
  unfold stopped_world.
  destruct (sources w !! node) as [[]|]; simpl; now rewrite ?app_nil_r.
Qed.

Lemma filming_log (render : Component) (b : Backend) (script : jsstring)
    (w : World) :
  log (snd (filming render b script w))
  = log w ++ [GenerateVideo (idea render) (aspectRatio render);
              GenerateSpeech script (voice render)].
Proof.
  rewrite filming_snd.
  destruct (generateSpeech_world b script (voice render)
              (snd (geminiService.generateVideo b (idea render)
                      (aspectRatio render) w))) as [ctx ->].
  destruct (generateVideo_world b (idea render) (aspectRatio render) w)
    as [n ->].
  simpl. now rewrite <- app_assoc.
Qed.

Lemma filming_sources (render : Component) (b : Backend) (script : jsstring)
    (w : World) :
  sources (snd (filming render b script w)) = sources w.
Proof.
  rewrite filming_snd.
  destruct (generateSpeech_world b script (voice render)
              (snd (geminiService.generateVideo b (idea render)
                      (aspectRatio render) w))) as [ctx ->].
  destruct (generateVideo_world b (idea render) (aspectRatio render) w)
    as [n ->].
  reflexivity.
Qed.

Variables (b : Backend) (s : System) (m : MovieData.t).
Hypothesis previous : movie (comp s) = Some m.
Hypothesis guard : truthy (trim (idea (comp s))) = true.

Lemma reset_log :
  log (world (reset_system (comp s) s))
  = log (world s) ++ RevokeObjectURL (MovieData.videoUrl m) :: audio_stops s.
Proof.
  unfold reset_system, audio_stops. rewrite previous. simpl.
  destruct (audioSourceRef (comp s)) as [node|].
  - rewrite log_stopped_world. simpl. now rewrite <- app_assoc.
  - reflexivity.
Qed.

Lemma reset_stops (node : nat) :
  audioSourceRef (comp s) = Some node ->
  sources (world s) !! node = Some Playing ->
  sources (world (reset_system (comp s) s)) !! node = Some Stopped.
Proof.
  intros R P. unfold reset_system, stopped_world. rewrite previous, R. simpl.
  rewrite P. simpl. apply lookup_insert_eq.
Qed.

(** The log of a run that follows a movie. *)
Lemma generated_log :
  exists calls,
    log (world (generated b s))
    = log (world s)
      ++ RevokeObjectURL (MovieData.videoUrl m) :: audio_stops s
      ++ GenerateScript (idea (comp s)) :: calls
    /\ (calls = []
        \/ exists script,
             calls = [GenerateVideo (idea (comp s)) (aspectRatio (comp s));
                      GenerateSpeech script (voice (comp s))]).
Proof.
  rewrite (generated_world b s guard).
  destruct (generateContent_text b _) as [text|e|].
  - eexists. split; [|right; eexists; reflexivity].
    rewrite filming_log, log_emit, reset_log.
    rewrite <- !app_assoc. simpl. rewrite <- ?app_assoc. reflexivity.
  - exists []. split; [|now left]. rewrite log_emit, reset_log.
    now rewrite <- !app_assoc.
  - exists []. split; [|now left]. rewrite log_emit, reset_log.
    now rewrite <- !app_assoc.
Qed.

Lemma generated_sources :
  sources (world (generated b s))
  = sources (world (reset_system (comp s) s)).
Proof.
  rewrite (generated_world b s guard).
  destruct (generateContent_text b _) as [text|e|]; try reflexivity.
  now rewrite filming_sources.
Qed.

Lemma generated_audioSourceRef : audioSourceRef (comp (generated b s)) = None.
Proof.
  rewrite (generated_comp b s guard).
  destruct (generateContent_text b _) as [text|e|]; cbv zeta;
    [destruct (fst (filming _ _ _ _)) as [result|e|] | |];
    rewrite ?caught_audioSourceRef; reflexivity.
Qed.

End Release.

Lemma revocations_app (l k : list Event) :
  revocations (l ++ k) = revocations l ++ revocations k.
Proof. apply omap_app. Qed.

Lemma revocations_audio_stops (s : System) : revocations (audio_stops s) = [].
Proof.
  unfold audio_stops. destruct (audioSourceRef (comp s)) as [node|]; [|reflexivity].
  now destruct (sources (world s) !! node) as [[]|].
Qed.


(** ** Runs in flight *)

(** Cutting [generateMovie] at its [await]s loses nothing: the pieces run
    in a row are the function. *)
Lemma generateMovie_phases_eq (render : Component) (b : Backend) (s : System) :
  generateMovie_phases render b s = generateMovie render b s.
Proof.
  unfold generateMovie_phases, generateMovie_start, generateMovie,
    generateMovie_try, generateMovie_scripted, generateMovie_joined,
    request, filming.
  destruct (negb (truthy (trim (idea render)))); [reflexivity|].
  unfold setStatus, setMovie. eff_unfold.
  destruct (generateMovie_reset render s) as [[[]| |] s1]; simpl; try reflexivity.
  destruct (geminiService.generateScript b (idea render) (world s1))
    as [[script| |] w1]; simpl; try reflexivity.
  destruct (await_all _ _ _ w1) as [[[url buf]| |] w2]; simpl; try reflexivity.
  all: destruct (generateMovie_catch _ _) as [[[]| |] ?]; reflexivity.
Qed.

(** *** What a handler leaves alone *)

Section Keeps.

Context {X : Type} (f : System -> X).

Lemma keeps_ret {A} (a : A) : keeps f (ret a).
Proof. intros s. reflexivity. Qed.

Lemma keeps_throw {A} (e : JsError) : keeps f (@throw System A e).
Proof. intros s. reflexivity. Qed.

Lemma keeps_await {A} (o : Outcome A) : keeps f (await o).
Proof. intros s. reflexivity. Qed.

Lemma keeps_use {A} (g : Component -> A) : keeps f (use g).
Proof. intros s. reflexivity. Qed.

Lemma keeps_bind {A B} (m : Eff System A) (k : A -> Eff System B) :
  keeps f m -> (forall a, keeps f (k a)) -> keeps f (bind m k).
Proof.
  intros Hm Hk s. unfold bind. specialize (Hm s).
  destruct (m s) as [[a|e|] s1]; simpl in *; [|exact Hm|exact Hm].
  now rewrite Hk.
Qed.

Lemma keeps_try_catch {A} (m : Eff System A) (h : JsError -> Eff System A) :
  keeps f m -> (forall e, keeps f (h e)) -> keeps f (try_catch m h).
Proof.
  intros Hm Hh s. unfold try_catch. specialize (Hm s).
  destruct (m s) as [[a|e|] s1]; simpl in *; [exact Hm| |exact Hm].
  now rewrite Hh.
Qed.

Lemma keeps_handle {A} (h : Component -> Eff System A) :
  (forall r, keeps f (h r)) -> keeps f (handle h).
Proof. intros H s. apply H. Qed.

Lemma keeps_modify (g : Component -> Component) :
  (forall s, f (on_comp g s) = f s) -> keeps f (modify (on_comp g)).
Proof. intros H s. apply H. Qed.

End Keeps.

(** The browser and the service do not write the component. *)
Lemma keeps_gate_in_world {A} (m : Eff World A) : keeps gate (in_world m).
Proof. intros s. unfold in_world. now destruct (m (world s)). Qed.

Lemma keeps_gate_request {A} (m : Eff World A) : keeps gate (request m).
Proof. intros s. unfold request. now destruct (m (world s)). Qed.

(** A call that leaves the source nodes alone. *)
Lemma keeps_audio_in_world {A} (m : Eff World A) :
  (forall w, sources (snd (m w)) = sources w) -> keeps audio (in_world m).
Proof.
  intros H s. unfold in_world, audio. specialize (H (world s)).
  destruct (m (world s)). simpl in *. now rewrite H.
Qed.

Lemma keeps_audio_request {A} (m : Eff World A) :
  (forall w, sources (snd (m w)) = sources w) -> keeps audio (request m).
Proof.
  intros H s. unfold request, audio. specialize (H (world s)).
  destruct (m (world s)). simpl in *. now rewrite H.
Qed.

Lemma getAudioContext_sources (w : World) :
  sources (snd (geminiService.getAudioContext w)) = sources w.
Proof.
  unfold geminiService.getAudioContext. eff_unfold.
  destruct w as [? ? ? ? ctx fresh ? ?]; simpl.
  destruct ctx as [[]|]; simpl; try destruct fresh; reflexivity.
Qed.

Lemma generateScript_sources (b : Backend) (idea : jsstring) (w : World) :
  sources (snd (geminiService.generateScript b idea w)) = sources w.
Proof. now rewrite generateScript_eq. Qed.

Create HintDb keeps discriminated.

#[local] Hint Resolve keeps_ret keeps_throw keeps_await keeps_use
  keeps_gate_in_world keeps_gate_request : keeps.
#[local] Hint Extern 1 (keeps _ (modify (on_comp _))) =>
  apply keeps_modify; intros ?; reflexivity : keeps.
#[local] Hint Extern 1 (keeps audio (in_world _)) =>
  apply keeps_audio_in_world; intros ?;
  first [ reflexivity | apply getAudioContext_sources ] : keeps.
#[local] Hint Extern 1 (keeps audio (request _)) =>
  apply keeps_audio_request; intros ?;
  first [ apply generateScript_sources | apply filming_sources ] : keeps.

(** Goes through a handler statement by statement. *)
Ltac keeps :=
  repeat first
    [ solve [auto with keeps]
    | apply keeps_bind; [|intros ?]
    | apply keeps_try_catch; [|intros ?]
    | apply keeps_handle; intros ?
    | match goal with
      | |- keeps _ (match ?x with _ => _ end) => destruct x
      | |- keeps _ (if ?x then _ else _) => destruct x
      | |- keeps _ (let '(_, _) := ?x in _) => destruct x
      end ].

Ltac unfold_setters :=
  unfold setIdea, setAspectRatio, setVoice, setStatus, setApiKeyReady,
    setIsPlaying, setIsMuted, setMovie, video_pause, video_play,
    video_set_currentTime, video_set_muted, video_set.

Section Handlers.

(** The playback handlers and the inputs leave status and credential
    flag alone. *)

Lemma stopAudio_keeps : keeps gate stopAudio.
Proof. unfold stopAudio. keeps. Qed.

Lemma playAudio_keeps (r : Component) : keeps gate (playAudio r).
Proof. unfold playAudio. keeps. Qed.

Hint Resolve stopAudio_keeps playAudio_keeps : keeps.







End Handlers.

(** *** Which node plays *)

Section Preserves.

Context (P : System -> Prop).

Lemma preserves_ret {A} (a : A) : preserves P (ret a).
Proof. intros s H. exact H. Qed.

Lemma preserves_bind {A B} (m : Eff System A) (k : A -> Eff System B) :
  preserves P m -> (forall a, preserves P (k a)) -> preserves P (bind m k).
Proof.
  intros Hm Hk s H. unfold bind. specialize (Hm s H).
  destruct (m s) as [[a|e|] s1]; simpl in *; [|exact Hm|exact Hm].
  now apply Hk.
Qed.

Lemma preserves_try_catch {A} (m : Eff System A) (h : JsError -> Eff System A) :
  preserves P m -> (forall e, preserves P (h e)) -> preserves P (try_catch m h).
Proof.
  intros Hm Hh s H. unfold try_catch. specialize (Hm s H).
  destruct (m s) as [[a|e|] s1]; simpl in *; [exact Hm| |exact Hm].
  now apply Hh.
Qed.

Lemma preserves_handle {A} (h : Component -> Eff System A) :
  (forall r, preserves P (h r)) -> preserves P (handle h).
Proof. intros H s. apply H. Qed.

End Preserves.

Lemma preserves_keeps {A} (m : Eff System A) :
  keeps audio m -> preserves only_tracked_plays m.
Proof.
  intros K s H node. specialize (K s). unfold audio in K.
  injection K as -> ->. apply H.
Qed.

Lemma silent_only_tracked (s : System) : silent s -> only_tracked_plays s.
Proof. intros H node Hn. now apply H in Hn. Qed.

Lemma stopped_world_silent (node : nat) (w : World) :
  (forall n, sources w !! n = Some Playing -> n = node) ->
  forall n, sources (stopped_world node w) !! n <> Some Playing.
Proof.
  intros H n. unfold stopped_world.
  destruct (sources w !! node) as [st|] eqn:E.
  - destruct st; simpl; try (intros Hn; pose proof (H n Hn); congruence).
    destruct (decide (n = node)) as [->|Hne].
    + rewrite lookup_insert_eq. discriminate.
    + rewrite lookup_insert_ne by congruence.
      intros Hn. now apply H in Hn.
  - intros Hn. pose proof (H n Hn). congruence.
Qed.

(** After [stopAudio] nothing plays, if only the tracked node did. *)
Lemma stopAudio_silent (s : System) :
  only_tracked_plays s -> silent (snd (stopAudio s)).
Proof.
  intros H. rewrite stopAudio_eq. unfold silent. simpl.
  destruct (audioSourceRef (comp s)) as [node|] eqn:R.
  - apply stopped_world_silent. intros n Hn. apply H in Hn. congruence.
  - intros n Hn. apply H in Hn. congruence.
Qed.

Lemma stopAudio_preserves : preserves only_tracked_plays stopAudio.
Proof. intros s H. now apply silent_only_tracked, stopAudio_silent. Qed.

(** One statement after the other, with what holds in between. *)
Lemma seq_rule {A B} (P Q R : System -> Prop)
    (m : Eff System A) (k : A -> Eff System B) :
  (forall s, P s -> Q (snd (m s))) ->
  (forall s, Q s -> R s) ->
  (forall a s, Q s -> R (snd (k a s))) ->
  forall s, P s -> R (snd (bind m k s)).
Proof.
  intros Hm HQR Hk s H. unfold bind. specialize (Hm s H).
  destruct (m s) as [[a|e|] s1]; simpl in *; auto.
Qed.

(** The first half of [playAudio]: the node it replaces is stopped. *)
Lemma stop_existing_silent (s : System) :
  only_tracked_plays s ->
  silent (snd ((let* existing := use audioSourceRef in
                match existing with
                | Some node =>
                    try_catch (in_world (AudioContext.stop node)) (fun _ => ret tt)
                | None => ret tt
                end) s)).
Proof.
  intros H. unfold use, gets. unfold bind at 1.
  destruct (audioSourceRef (comp s)) as [node|] eqn:R.
  - rewrite stop_absorbed. unfold silent. simpl.
    apply stopped_world_silent. intros n Hn. apply H in Hn. congruence.
  - intros n Hn. apply H in Hn. simpl in Hn. congruence.
Qed.

(** The second half: a new node is created, started and tracked. *)
Lemma start_source_state (gain : N) (s : System) :
  let s' := snd ((let* source := in_world AudioContext.createBufferSource in
                  let* gainNode := in_world AudioContext.createGain in
                  in_world (AudioContext.set_gain_value gainNode gain) >>
                  in_world (AudioContext.start source) >>
                  modify (on_comp (set_audioSourceRef (Some source))) >>
                  modify (on_comp (set_gainNodeRef (Some gainNode)))) s) in
  sources (world s')
  = <[next_node (world s) := Playing]>
      (<[next_node (world s) := Unstarted]> (sources (world s)))
  /\ audioSourceRef (comp s') = Some (next_node (world s)).
Proof.
  destruct s as [c [src gns nn nb ctx fr rj lg]].
  unfold AudioContext.createBufferSource, AudioContext.createGain,
    AudioContext.set_gain_value, AudioContext.start.
  eff_unfold. simpl. rewrite lookup_insert_eq. simpl. split; reflexivity.
Qed.

Lemma start_source_tracked (gain : N) (s : System) :
  silent s ->
  only_tracked_plays
    (snd ((let* source := in_world AudioContext.createBufferSource in
           let* gainNode := in_world AudioContext.createGain in
           in_world (AudioContext.set_gain_value gainNode gain) >>
           in_world (AudioContext.start source) >>
           modify (on_comp (set_audioSourceRef (Some source))) >>
           modify (on_comp (set_gainNodeRef (Some gainNode)))) s)).
Proof.
  intros Q n. destruct (start_source_state gain s) as [-> ->].
  destruct (decide (n = next_node (world s))) as [->|Hne]; [reflexivity|].
  rewrite lookup_insert_ne by congruence.
  rewrite lookup_insert_ne by congruence.
  intros Hn. now apply Q in Hn.
Qed.

(** [playAudio] stops the node it replaces and tracks the one it starts. *)
Lemma playAudio_preserves (r : Component) :
  preserves only_tracked_plays (playAudio r).
Proof.
  unfold playAudio, preserves.
  destruct (movie r) as [[? ? ? [buffer|] ?]|]; try (intros s H; exact H).
  apply (seq_rule only_tracked_plays only_tracked_plays);
    [apply preserves_keeps; keeps | auto | intros _].
  apply (seq_rule only_tracked_plays only_tracked_plays);
    [apply preserves_keeps; keeps | auto | intros _].
  apply (seq_rule only_tracked_plays silent);
    [exact stop_existing_silent | exact silent_only_tracked | intros _].
  apply start_source_tracked.
Qed.

Create HintDb preserves discriminated.

#[local] Hint Resolve preserves_ret stopAudio_preserves playAudio_preserves
  : preserves.

(** Goes through a handler statement by statement; a statement that
    touches neither the source nodes nor their handle is set aside. *)
Ltac preserving :=
  repeat first
    [ solve [auto with preserves]
    | solve [apply preserves_keeps; keeps]
    | apply preserves_bind; [|intros ?]
    | apply preserves_try_catch; [|intros ?]
    | apply preserves_handle; intros ?
    | match goal with
      | |- preserves _ (match ?x with _ => _ end) => destruct x
      | |- preserves _ (if ?x then _ else _) => destruct x
      end ].

Section AudioHandlers.

Lemma togglePlay_preserves : preserves only_tracked_plays (handle togglePlay).
Proof. unfold togglePlay. unfold_setters. preserving. Qed.

Lemma toggleMute_preserves : preserves only_tracked_plays (handle toggleMute).
Proof.
  unfold toggleMute, AudioContext.set_gain_value. unfold_setters. preserving.
Qed.

Lemma handleVideoEnded_preserves :
  preserves only_tracked_plays (handle (fun _ => handleVideoEnded)).
Proof. unfold handleVideoEnded. unfold_setters. preserving. Qed.

Lemma handleVideoPause_preserves :
  preserves only_tracked_plays (video_pause >> handle handleVideoPause).
Proof. unfold handleVideoPause. unfold_setters. preserving. Qed.

Lemma handleVideoPlay_preserves :
  preserves only_tracked_plays (video_play >> handle handleVideoPlay).
Proof. unfold handleVideoPlay. unfold_setters. preserving. Qed.

Lemma handleSelectApiKey_preserves (prompt : Outcome unit) :
  preserves only_tracked_plays (handleSelectApiKey prompt).
Proof. unfold handleSelectApiKey. unfold_setters. preserving. Qed.

Lemma checkApiKey_preserves (ready : Outcome bool) :
  preserves only_tracked_plays (checkApiKey ready).
Proof. unfold checkApiKey. unfold_setters. preserving. Qed.

Lemma generateMovie_catch_preserves (e : JsError) :
  preserves only_tracked_plays (generateMovie_catch e).
Proof. unfold generateMovie_catch. unfold_setters. preserving. Qed.

Hint Resolve generateMovie_catch_preserves : preserves.

Lemma generateMovie_start_preserves (r : Component) (b : Backend) :
  preserves only_tracked_plays (generateMovie_start r b).
Proof.
  unfold generateMovie_start, generateMovie_reset, URL.revokeObjectURL.
  unfold_setters. preserving.
Qed.

Lemma generateMovie_scripted_preserves (r : Component) (b : Backend) promise :
  preserves only_tracked_plays (generateMovie_scripted r b promise).
Proof. unfold generateMovie_scripted. unfold_setters. preserving. Qed.

Lemma generateMovie_joined_preserves (r : Component) (b : Backend) script join :
  preserves only_tracked_plays (generateMovie_joined r b script join).
Proof.
  unfold generateMovie_joined. unfold_setters.
  apply preserves_try_catch; [|intros ?; preserving].
  apply preserves_bind; [preserving|]. intros [url buf]. preserving.
Qed.

Lemma inputs_preserve text a v :
  preserves only_tracked_plays (setIdea text)
  /\ preserves only_tracked_plays (setAspectRatio a)
  /\ preserves only_tracked_plays (setVoice v).
Proof. unfold_setters. repeat split; preserving. Qed.

End AudioHandlers.

(** *** The pieces of a run *)

Section Pieces.

Variables (r : Component) (b : Backend) (s : System).

Lemma generateMovie_start_blank :
truthy (trim (idea r)) = false ->
generateMovie_start r b s = (Ok None, s).
Proof. intros G. unfold generateMovie_start. now rewrite G. Qed.

Lemma generateMovie_start_eq :
truthy (trim (idea r)) = true ->
exists promise w,
  generateMovie_start r b s
  = (Ok (Some promise),
     {| comp := set_status status_script (comp (reset_system r s));
        world := w |}).
Proof.
intros G. unfold generateMovie_start. rewrite G. simpl.
unfold bind at 1. rewrite generateMovie_reset_eq.
unfold setStatus, request. eff_unfold. simpl.
destruct (geminiService.generateScript b (idea r) _) as [o w]. eauto.
Qed.

(** When the script promise settles, the run goes on to filming or is
  ended by the [catch] block. *)
Lemma generateMovie_scripted_eq (promise : Outcome jsstring) :
settled promise = true ->
(exists script join w,
   generateMovie_scripted r b promise s
   = (Ok (Some (script, join)),
      {| comp := set_status status_video (comp s); world := w |}))
\/ (exists e,
      generateMovie_scripted r b promise s
      = (if readable e then Ok None else Throw TypeError,
         on_comp (caught e) s)).
Proof.
unfold generateMovie_scripted. destruct promise as [script|e|]; [| |discriminate].
- intros _. left. unfold setStatus, request. eff_unfold. simpl.
  destruct (filming r b script (world s)) as [o w]. eauto.
- intros _. right. exists e. unfold try_catch, bind, await. cbn beta iota.
  rewrite generateMovie_catch_eq. unfold catch_outcome, ret.
  now destruct (readable e).
Qed.

Lemma generateMovie_joined_eq (script : jsstring)
  (join : Outcome (jsstring * AudioBuffer)) :
settled join = true ->
(exists result,
   join = Ok result
   /\ exec (generateMovie_joined r b script join) s
      = on_comp (fun c => set_status status_complete
                            (show_movie (assemble r b script result) c)) s)
\/ (exists e,
      join = Throw e
      /\ exec (generateMovie_joined r b script join) s = on_comp (caught e) s).
Proof.
unfold generateMovie_joined. destruct join as [[url buf]|e|]; [| |discriminate].
- intros _. left. exists (url, buf). split; reflexivity.
- intros _. right. exists e. split; [reflexivity|].
  unfold exec, try_catch, bind, await. cbn beta iota.
  now rewrite generateMovie_catch_eq.
Qed.

End Pieces.



(** *** At most one run *)

Section OneRun.

Lemma handleSelectApiKey_eq (prompt : Outcome unit) (s : System) :
  exec (handleSelectApiKey prompt) s
  = match prompt with
    | Ok _ => on_comp (set_apiKeyReady true) s
    | Throw _ =>
        on_comp (set_status (status_error (lit "Failed to select API key"))) s
    | Never => s
    end.
Proof. destruct prompt as [[]| |]; reflexivity. Qed.







Lemma source_ended_only_tracked (node : nat) (s : System) :
only_tracked_plays s ->
only_tracked_plays {| comp := comp s; world := source_ended node (world s) |}.
Proof.
  intros H n. unfold source_ended. simpl.
  destruct (sources (world s) !! node) as [[]|]; try apply H. simpl.
  destruct (decide (n = node)) as [->|Hne].
  - rewrite lookup_insert_eq. discriminate.
  - rewrite lookup_insert_ne by congruence. apply H.
Qed.

Lemma elapsed_preserves (t : N) : preserves only_tracked_plays (elapsed t).
Proof. unfold elapsed. unfold_setters. preserving. Qed.

(** Every action leaves the tracked node the only one that may play. *)
Lemma step_only_tracked (a : Action) (app app' : App) :
only_tracked_plays (sys app) -> step a app = Some app' ->
only_tracked_plays (sys app').
Proof.
  intros I. destruct a; simpl.
  - destruct (check app) as [ready|]; [|discriminate].
    destruct (settled ready); [|discriminate]. intros [= <-].
    now apply checkApiKey_preserves.
  - destruct (apiKeyReady _); [discriminate|]. now intros [= <-].
  - destruct (dialogs app !! i) as [prompt|]; [|discriminate].
    destruct (settled prompt); [|discriminate]. intros [= <-].
    now apply handleSelectApiKey_preserves.
  - destruct (sources _ !! node) as [[]|] eqn:E; try discriminate.
    intros [= <-]. now apply source_ended_only_tracked.
  - intros [= <-]. exact (proj1 (inputs_preserve text Landscape Kore) _ I).
  - intros [= <-]. exact (proj1 (proj2 (inputs_preserve [] a Kore)) _ I).
  - intros [= <-]. exact (proj2 (proj2 (inputs_preserve [] Landscape v)) _ I).
  - destruct (generate_disabled _); [now intros [= <-]|].
    pose proof (generateMovie_start_preserves (comp (sys app)) b (sys app) I) as H.
    destruct (generateMovie_start _ b (sys app)) as [[[promise|]| |] s1];
      now intros [= <-].
  - destruct (runs app !! i) as [[r b [promise|script join]]|]; try discriminate.
    destruct (settled promise); [|discriminate].
    pose proof (generateMovie_scripted_preserves r b promise (sys app) I) as H.
    destruct (generateMovie_scripted r b promise (sys app))
      as [[[[script join]|]| |] s1]; now intros [= <-].
  - destruct (runs app !! i) as [[r b [promise|script join]]|]; try discriminate.
    destruct (settled join); [|discriminate]. intros [= <-].
    now apply generateMovie_joined_preserves.
  - destruct (movie _); [|discriminate]. intros [= <-].
    now apply togglePlay_preserves.
  - destruct (movie _); [|discriminate]. intros [= <-].
    now apply toggleMute_preserves.
  - destruct (videoRef _); [|discriminate]. intros [= <-].
    now apply handleVideoEnded_preserves.
  - destruct (videoRef _); [|discriminate]. intros [= <-].
    now apply handleVideoPause_preserves.
  - destruct (videoRef _); [|discriminate]. intros [= <-].
    now apply handleVideoPlay_preserves.
  - destruct (videoRef _); [|discriminate]. intros [= <-].
    now apply elapsed_preserves.
Qed.

(** In every state the page can reach, only the tracked node plays. *)
Lemma reachable_invariant (app : App) :
reachable app -> only_tracked_plays (sys app).
Proof.
  induction 1 as [ready w E | a app app' _ I S].
  - intros node. simpl. rewrite E. now rewrite lookup_empty.
  - exact (step_only_tracked a app app' I S).
Qed.



End OneRun.

(** The page after a list of actions, if they can happen in that order. *)
Lemma run_trace_reachable (trace : list Action) (app app' : App) :
  reachable app -> run_trace trace app = Some app' -> reachable app'.
Proof.
  revert app. induction trace as [|a trace IH]; intros app R; simpl.
  - now intros [= <-].
  - destruct (step a app) as [app1|] eqn:S; [|discriminate].
    apply IH. exact (reachable_step a app app1 R S).
Qed.




(** A run that nothing interrupts: the click and the two promises
    settling, one after the other, lead where [generateMovie] leads. *)
Lemma uninterrupted_run (b : Backend) (app app1 app2 app3 : App) :
  runs app = [] ->
  generate_disabled (comp (sys app)) = false ->
  step (Click_generate b) app = Some app1 ->
  step (Script_settles 0) app1 = Some app2 ->
  step (Join_settles 0) app2 = Some app3 ->
  sys app3 = generated b (sys app) /\ runs app3 = [].
Proof.
  intros R D. unfold generated, handle, exec.
  rewrite <- generateMovie_phases_eq. unfold generateMovie_phases, bind.
  simpl. rewrite D, R.
  destruct (generateMovie_start _ b (sys app)) as [[[promise|]| |] s1];
    intros [= <-]; simpl; try discriminate.
  destruct (settled promise); [|discriminate].
  destruct (generateMovie_scripted _ b promise s1)
    as [[[[script join]|]| |] s2];
    intros [= <-]; simpl; try discriminate.
  destruct (settled join); [|discriminate].
  intros [= <-]. simpl. split; reflexivity.
Qed.

(** ** A new generation over a movie *)

(** The statements before [try] leave no node playing. *)
Lemma reset_silent (r : Component) (s : System) :
  only_tracked_plays s -> silent (reset_system r s).
Proof.
  intros T node. unfold reset_system. cbn [world].
  set (w := match movie r with
            | Some m => emit (RevokeObjectURL (MovieData.videoUrl m)) (world s)
            | None => world s
            end).
  assert (E : sources w = sources (world s))
    by (subst w; destruct (movie r); reflexivity).
  destruct (audioSourceRef (comp s)) as [n0|] eqn:R.
  - apply stopped_world_silent. intros n Hn. rewrite E in Hn.
    apply T in Hn. congruence.
  - rewrite E. intros Hn. apply T in Hn. congruence.
Qed.

(** C5. A movie is present and a new generation starts (the idea gets
    past the guard, that is, it is not blank).  Then the first thing the
    run does is to revoke the URL of that movie; it revokes nothing else,
    so this URL is revoked exactly once, and before the script request
    and the filming requests, which come after it in the log.  The audio
    handle that was tracked is dropped, and its node, if it was playing,
    is stopped; as no node but the tracked one can be playing (so it is
    in every state the page reaches), none is playing afterwards. *)
Theorem regeneration_revokes_once (b : Backend) (s : System) (m : MovieData.t) :
  movie (comp s) = Some m ->
  truthy (trim (idea (comp s))) = true ->
  let s' := generated b s in
  (exists calls,
     new_events s s'
     = RevokeObjectURL (MovieData.videoUrl m) :: audio_stops s
       ++ GenerateScript (idea (comp s)) :: calls
     /\ (calls = []
         \/ exists script,
              calls = [GenerateVideo (idea (comp s)) (aspectRatio (comp s));
                       GenerateSpeech script (voice (comp s))]))
  /\ revocations (new_events s s') = [MovieData.videoUrl m]
  /\ audioSourceRef (comp s') = None
  /\ (forall node,
        audioSourceRef (comp s) = Some node ->
        sources (world s) !! node = Some Playing ->
        sources (world s') !! node = Some Stopped)
  /\ (only_tracked_plays s -> silent s').
Proof.
  intros P G s'. subst s'.
  destruct (generated_log b s m P G) as (calls & L & C).
  assert (E : new_events s (generated b s)
              = RevokeObjectURL (MovieData.videoUrl m) :: audio_stops s
                ++ GenerateScript (idea (comp s)) :: calls).
  { unfold new_events. rewrite L. apply drop_app_length. }
  split; [exists calls; split; [exact E | exact C]|].
  split.
  - rewrite E. simpl. rewrite revocations_app, revocations_audio_stops. simpl.
    destruct C as [-> | (script & ->)]; reflexivity.
  - split; [exact (generated_audioSourceRef b s G)|]. split.
    + intros node R Pl. rewrite (generated_sources b s G).
      exact (reset_stops s m P node R Pl).
    + intros T node. rewrite (generated_sources b s G).
      exact (reset_silent (comp s) s T node).
Qed.

(** The first movie is playing when the user generates again: its URL is
    revoked once, first of all, and the playing node is stopped. *)
Lemma regeneration_revokes_once_witness :
  let s := playing true in
  let s' := generated backend_ok s in
  audioSourceRef (comp s) = Some 0
  /\ sources (world s) !! 0 = Some Playing
  /\ new_events s s'
     = [RevokeObjectURL (lit "blob:0"); SourceStop 0;
        GenerateScript cat_idea; GenerateVideo cat_idea Landscape;
        GenerateSpeech (lit "A cat cruises down the boardwalk, tail high.") Kore]
  /\ revocations (new_events s s') = [lit "blob:0"]
  /\ sources (world s') !! 0 = Some Stopped.
Proof.
  intros s s'.
  assert (P : movie (comp s)
              = Some (MovieData.mk (toString 1700000000000)
                        (lit "A cat cruises down the boardwalk, tail high.")
                        (lit "blob:0")
                        (Some {| numberOfChannels := 1; sampleRate := 24000;
                                 frames := 48000 |})
                        Landscape)) by reflexivity.
  assert (G : truthy (trim (idea (comp s))) = true) by reflexivity.
  destruct (regeneration_revokes_once backend_ok s _ P G)
    as (_ & R & _ & S & _).
  split; [reflexivity|]. split; [reflexivity|]. split; [reflexivity|].
  split; [exact R|]. apply S; reflexivity.
Defined.

(** * Further properties of the code *)

(** ** Playback *)

Lemma bind_ok {S A B} (m : Eff S A) (k : A -> Eff S B) (s s1 : S) (a : A) :
  m s = (Ok a, s1) -> bind m k s = k a s1.
Proof. intros E. unfold bind. now rewrite E. Qed.

Lemma getAudioContext_eq (w : World) :
  geminiService.getAudioContext w
  = (Ok tt, set_window_audioContext (Some Running) w).
Proof.
  unfold geminiService.getAudioContext. eff_unfold.
  destruct w as [? ? ? ? ctx fresh ? ?]; simpl.
  destruct ctx as [[]|]; simpl; try destruct fresh; reflexivity.
Qed.

(** [playAudio] for a movie with audio, in one piece. *)
Lemma playAudio_eq (r : Component) (s : System) (m : MovieData.t)
    (buffer : AudioBuffer) :
  movie r = Some m -> MovieData.audioBuffer m = Some buffer ->
  playAudio r s = (Ok tt, played (isMuted r) s).
Proof.
  intros Hm Hb. unfold playAudio. rewrite Hm. destruct m as [? ? ? ab ?].
  simpl in Hb. subst ab. destruct s as [c w].
  erewrite bind_ok
    by (unfold in_world; cbn [world comp]; rewrite getAudioContext_eq; reflexivity).
  erewrite bind_ok by reflexivity.
  erewrite bind_ok with
    (s1 := {| comp := set_audioContextRef true c;
              world := match audioSourceRef c with
                       | Some node =>
                           stopped_world node
                             (set_window_audioContext (Some Running) w)
                       | None => set_window_audioContext (Some Running) w
                       end |}) (a := tt).
  2:{ unfold use, gets, bind, on_comp. cbn [comp world audioSourceRef set_audioContextRef].
      destruct (audioSourceRef c) as [node|]; [|reflexivity].
      now rewrite stop_absorbed. }
  unfold played. cbn [comp world].
  set (w1 := match audioSourceRef c with
             | Some node => _
             | None => _
             end).
  assert (N : next_node w1 = next_node w).
  { subst w1. destruct (audioSourceRef c) as [node|]; [|reflexivity].
    unfold stopped_world. cbn [sources set_window_audioContext].
    now destruct (sources w !! node) as [[]|]. }
  unfold AudioContext.createBufferSource, AudioContext.createGain,
    AudioContext.set_gain_value, AudioContext.start.
  eff_unfold. cbn [comp world next_node set_sources set_next_node set_gains
                   sources fst snd].
  rewrite lookup_insert_eq, N. reflexivity.
Qed.

(** Without a movie, or with a movie that has no audio, [playAudio] does
    nothing. *)
Lemma playAudio_nothing (r : Component) (s : System) :
  movie r = None
  \/ (exists m, movie r = Some m /\ MovieData.audioBuffer m = None) ->
  playAudio r s = (Ok tt, s).
Proof.
  unfold playAudio. intros [-> | (m & -> & Hb)]; [reflexivity|].
  destruct m as [? ? ? ab ?]. simpl in Hb. now subst ab.
Qed.

Lemma played_sources (muted : bool) (s : System) :
  sources (world (played muted s))
  = <[next_node (world s) := Playing]>
      (<[next_node (world s) := Unstarted]>
         (match audioSourceRef (comp s) with
          | Some node => sources (stopped_world node (world s))
          | None => sources (world s)
          end)).
Proof.
  unfold played. cbn [world sources emit set_sources set_gains set_next_node].
  f_equal. f_equal. destruct (audioSourceRef (comp s)) as [node|]; [|reflexivity].
  unfold stopped_world. cbn [sources set_window_audioContext].
  now destruct (sources (world s) !! node) as [[]|].
Qed.

Lemma played_other_nodes (muted : bool) (s : System) (node : nat) :
  only_tracked_plays s -> node <> next_node (world s) ->
  sources (world (played muted s)) !! node <> Some Playing.
Proof.
  intros T Hne. rewrite played_sources.
  rewrite lookup_insert_ne by congruence.
  rewrite lookup_insert_ne by congruence.
  destruct (audioSourceRef (comp s)) as [tracked|] eqn:R.
  - apply stopped_world_silent. intros n Hn. apply T in Hn. congruence.
  - intros Hn. apply T in Hn. congruence.
Qed.

(** X1. [playAudio] for a movie with audio returns normally and leaves
    exactly one source node playing: the new one, which [audioSourceRef]
    tracks; the node tracked before is stopped.  The new gain node is
    tracked in [gainNodeRef] and starts at gain 0 if the render is muted,
    at 1 otherwise. *)
Theorem playAudio_starts_one_source
    (r : Component) (s : System) (m : MovieData.t) (buffer : AudioBuffer) :
  movie r = Some m ->
  MovieData.audioBuffer m = Some buffer ->
  only_tracked_plays s ->
  let s' := snd (playAudio r s) in
  let n := next_node (world s) in
  fst (playAudio r s) = Ok tt
  /\ audioSourceRef (comp s') = Some n
  /\ sources (world s') !! n = Some Playing
  /\ (forall node, node <> n -> sources (world s') !! node <> Some Playing)
  /\ gainNodeRef (comp s') = Some (S n)
  /\ gains (world s') !! S n = Some (if isMuted r then 0 else 1)%N.
Proof.
  intros Hm Hb T. cbv zeta. rewrite (playAudio_eq r s m buffer Hm Hb).
  cbn [fst snd]. split; [reflexivity|]. split; [reflexivity|].
  split; [rewrite played_sources; apply lookup_insert_eq|].
  split; [intros node; now apply played_other_nodes|].
  split; [reflexivity|].
  unfold played. cbn [world gains emit set_sources set_gains set_next_node].
  apply lookup_insert_eq.
Qed.

(** The first movie plays and the user has muted it: a second
    [playAudio] stops node 0 and starts node 2 at gain 0. *)
Lemma playAudio_starts_one_source_witness :
  let s := exec (handle toggleMute) (playing true) in
  let s' := snd (playAudio (comp s) s) in
  sources (world s) !! 0 = Some Playing
  /\ sources (world s') !! 0 = Some Stopped
  /\ sources (world s') !! 2 = Some Playing
  /\ audioSourceRef (comp s') = Some 2
  /\ gains (world s') !! 3 = Some 0%N.
Proof.
  intros s s'.
  assert (T : only_tracked_plays s).
  { apply toggleMute_preserves, togglePlay_preserves, silent_only_tracked.
    intros node.
    replace (sources (world (with_movie true))) with (∅ : gmap nat NodeState)
      by (vm_compute; reflexivity).
    now rewrite lookup_empty. }
  destruct (playAudio_starts_one_source (comp s) s
              (MovieData.mk (toString 1700000000000)
                 (lit "A cat cruises down the boardwalk, tail high.")
                 (lit "blob:0")
                 (Some {| numberOfChannels := 1; sampleRate := 24000;
                          frames := 48000 |})
                 Landscape)
              {| numberOfChannels := 1; sampleRate := 24000; frames := 48000 |}
              eq_refl eq_refl T) as (_ & R & P & _ & _ & G).
  split; [reflexivity|]. split; [reflexivity|].
  split; [exact P|]. split; [exact R | exact G].
Defined.

Section TogglePlay.

Variables (s : System) (v : HTMLVideoElement) (m : MovieData.t).
Hypothesis element : videoRef (comp s) = Some v.
Hypothesis shown : movie (comp s) = Some m.

(** The pausing branch, in one piece. *)
Lemma togglePlay_pauses :
  isPlaying (comp s) = true ->
  handle togglePlay s
  = (Ok tt,
     {| comp := set_isPlaying false
                  (set_audioSourceRef None
                     (set_videoRef
                        (Some {| muted := muted v; paused := true;
                                 currentTime := currentTime v |})
                        (comp s)));
        world := match audioSourceRef (comp s) with
                 | Some node => stopped_world node (world s)
                 | None => world s
                 end |}).
Proof.
  intros P. unfold handle, togglePlay, use, gets. unfold bind at 1.
  rewrite element, shown, P. unfold video_pause, video_set, setIsPlaying.
  erewrite bind_ok by reflexivity.
  erewrite bind_ok by apply stopAudio_eq.
  unfold modify, on_comp. cbn [comp world]. rewrite element. reflexivity.
Qed.

(** The playing branch, in one piece. *)
Lemma togglePlay_plays :
  isPlaying (comp s) = false ->
  let started :=
    on_comp (set_videoRef (Some {| muted := muted v; paused := false;
                                   currentTime := 0 |})) s in
  handle togglePlay s
  = (Ok tt,
     on_comp (set_isPlaying true)
       (match MovieData.audioBuffer m with
        | Some _ => played (isMuted (comp s)) started
        | None => started
        end)).
Proof.
  intros P started. unfold handle, togglePlay, use, gets. unfold bind at 1.
  rewrite element, shown, P.
  unfold video_set_currentTime, video_play, video_set, setIsPlaying.
  erewrite bind_ok by reflexivity.
  erewrite bind_ok by reflexivity.
  assert (E : on_comp
                (fun c => set_videoRef
                   ((fun v0 => {| muted := muted v0; paused := false;
                                  currentTime := currentTime v0 |})
                      <$> videoRef c) c)
                (on_comp
                   (fun c => set_videoRef
                      ((fun v0 => {| muted := muted v0; paused := paused v0;
                                     currentTime := 0 |}) <$> videoRef c) c) s)
              = started).
  { subst started. unfold on_comp. cbn [comp world videoRef set_videoRef].
    rewrite element. reflexivity. }
  rewrite E. destruct (MovieData.audioBuffer m) as [buffer|] eqn:B.
  - erewrite bind_ok by exact (playAudio_eq (comp s) started m buffer shown B).
    reflexivity.
  - erewrite bind_ok
      by (apply playAudio_nothing; right; exists m; split; assumption).
    reflexivity.
Qed.

End TogglePlay.

Lemma played_comp_fields (muted : bool) (s : System) :
  isPlaying (comp (played muted s)) = isPlaying (comp s)
  /\ videoRef (comp (played muted s)) = videoRef (comp s)
  /\ movie (comp (played muted s)) = movie (comp s)
  /\ isMuted (comp (played muted s)) = isMuted (comp s)
  /\ status (comp (played muted s)) = status (comp s).
Proof. repeat split. Qed.

(** X2. With a movie on screen, the play button flips [isPlaying] and
    leaves the element in step with it: paused exactly when not playing,
    and rewound to 0 when playback starts.  Pausing drops the audio
    handle and stops its node; starting, for a movie with audio, leaves a
    tracked node playing. *)
Theorem togglePlay_flips (s : System) (v : HTMLVideoElement) (m : MovieData.t) :
  videoRef (comp s) = Some v ->
  movie (comp s) = Some m ->
  let s' := exec (handle togglePlay) s in
  fst (handle togglePlay s) = Ok tt
  /\ isPlaying (comp s') = negb (isPlaying (comp s))
  /\ videoRef (comp s')
     = Some {| muted := muted v;
               paused := isPlaying (comp s);
               currentTime := if isPlaying (comp s) then currentTime v else 0 |}
  /\ (isPlaying (comp s) = true ->
      audioSourceRef (comp s') = None
      /\ forall node, audioSourceRef (comp s) = Some node ->
                      sources (world s) !! node = Some Playing ->
                      sources (world s') !! node = Some Stopped)
  /\ (isPlaying (comp s) = false ->
      MovieData.audioBuffer m <> None ->
      exists node, audioSourceRef (comp s') = Some node
                   /\ sources (world s') !! node = Some Playing).
Proof.
  intros V M. unfold exec. destruct (isPlaying (comp s)) eqn:P.
  - rewrite (togglePlay_pauses s v m V M P). cbn [fst snd].
    repeat split; try discriminate.
    intros node R Pl. cbn [world]. rewrite R. unfold stopped_world.
    rewrite Pl. apply lookup_insert_eq.
  - rewrite (togglePlay_plays s v m V M P). cbn [fst snd].
    destruct (MovieData.audioBuffer m) as [buffer|]; repeat split;
      try discriminate; try congruence.
    intros _ _. eexists. split; [reflexivity|].
    cbn [world on_comp]. rewrite played_sources. apply lookup_insert_eq.
Qed.

(** Play on the first movie: playing, element running from 0, node 0
    playing; pause again: element paused, node 0 stopped, no handle. *)
Lemma togglePlay_flips_witness :
  let s := with_movie true in
  let s1 := exec (handle togglePlay) s in
  let s2 := exec (handle togglePlay) s1 in
  isPlaying (comp s1) = true
  /\ (paused <$> videoRef (comp s1)) = Some false
  /\ isPlaying (comp s2) = false
  /\ (paused <$> videoRef (comp s2)) = Some true
  /\ audioSourceRef (comp s2) = None.
Proof.
  intros s s1 s2.
  destruct (togglePlay_flips s new_video
              (MovieData.mk (toString 1700000000000)
                 (lit "A cat cruises down the boardwalk, tail high.")
                 (lit "blob:0")
                 (Some {| numberOfChannels := 1; sampleRate := 24000;
                          frames := 48000 |})
                 Landscape) eq_refl eq_refl) as (_ & P1 & V1 & _).
  fold s1 in P1, V1.
  destruct (togglePlay_flips s1 {| muted := false; paused := false; currentTime := 0 |}
              (MovieData.mk (toString 1700000000000)
                 (lit "A cat cruises down the boardwalk, tail high.")
                 (lit "blob:0")
                 (Some {| numberOfChannels := 1; sampleRate := 24000;
                          frames := 48000 |})
                 Landscape) eq_refl eq_refl) as (_ & P2 & V2 & A2 & _).
  fold s2 in P2, V2, A2.
  split; [exact P1|]. split; [rewrite V1; reflexivity|].
  split; [rewrite P2, P1; reflexivity|].
  split; [rewrite V2, P1; reflexivity|].
  apply A2. rewrite P1. reflexivity.
Defined.

(** X3. The element fires its own [play] or [pause] event after the play
    button has called [play()] or [pause()] on it; the handlers of these
    events then find [isPlaying] already in line and do nothing, so the
    audio the button started is not started a second time and nothing is
    stopped twice. *)
Theorem native_event_after_toggle_is_noop
    (s : System) (v : HTMLVideoElement) (m : MovieData.t) :
  videoRef (comp s) = Some v ->
  movie (comp s) = Some m ->
  let s' := exec (handle togglePlay) s in
  (isPlaying (comp s) = false -> handle handleVideoPlay s' = (Ok tt, s'))
  /\ (isPlaying (comp s) = true -> handle handleVideoPause s' = (Ok tt, s')).
Proof.
  intros V M. unfold exec. split; intros P.
  - rewrite (togglePlay_plays s v m V M P). cbn [snd].
    unfold handle, handleVideoPlay.
    now destruct (MovieData.audioBuffer m).
  - rewrite (togglePlay_pauses s v m V M P). reflexivity.
Qed.

Lemma native_event_after_toggle_is_noop_witness :
  let s' := exec (handle togglePlay) (with_movie true) in
  handle handleVideoPlay s' = (Ok tt, s').
Proof.
  intros s'.
  destruct (native_event_after_toggle_is_noop (with_movie true) new_video
              (MovieData.mk (toString 1700000000000)
                 (lit "A cat cruises down the boardwalk, tail high.")
                 (lit "blob:0")
                 (Some {| numberOfChannels := 1; sampleRate := 24000;
                          frames := 48000 |})
                 Landscape) eq_refl eq_refl) as [H _].
  apply H. reflexivity.
Defined.

(** X4. Play, and pause after the element has played up to a time [t]:
    the movie is not playing, the element is paused where it was (the
    pause does not rewind), no audio handle is tracked and no source node
    is playing; mute flag, movie and status are as before. *)
Theorem play_then_pause_stops_everything
    (s : System) (v : HTMLVideoElement) (m : MovieData.t) (t : N) :
  videoRef (comp s) = Some v ->
  movie (comp s) = Some m ->
  isPlaying (comp s) = false ->
  only_tracked_plays s ->
  let s2 := exec (handle togglePlay)
              (exec (elapsed t) (exec (handle togglePlay) s)) in
  isPlaying (comp s2) = false
  /\ videoRef (comp s2)
     = Some {| muted := muted v; paused := true; currentTime := t |}
  /\ audioSourceRef (comp s2) = None
  /\ silent s2
  /\ isMuted (comp s2) = isMuted (comp s)
  /\ movie (comp s2) = movie (comp s)
  /\ status (comp s2) = status (comp s).
Proof.
  intros V M P T. cbv zeta.
  assert (T1 : only_tracked_plays
                 (snd (elapsed t (snd (handle togglePlay s)))))
    by exact (elapsed_preserves t _ (togglePlay_preserves s T)).
  unfold exec. rewrite (togglePlay_plays s v m V M P) in T1 |- *.
  cbn [snd] in T1 |- *.
  set (s0 := on_comp (set_isPlaying true) _) in *.
  assert (V0 : videoRef (comp s0)
               = Some {| muted := muted v; paused := false; currentTime := 0 |})
    by (subst s0; now destruct (MovieData.audioBuffer m)).
  assert (M0 : movie (comp s0) = Some m)
    by (subst s0; now destruct (MovieData.audioBuffer m)).
  assert (F : isMuted (comp s0) = isMuted (comp s)
              /\ status (comp s0) = status (comp s))
    by (subst s0; now destruct (MovieData.audioBuffer m)).
  set (s1 := snd (elapsed t s0)) in *.
  assert (V1 : videoRef (comp s1)
               = Some {| muted := muted v; paused := false; currentTime := t |})
    by (subst s1; unfold elapsed, video_set_currentTime, video_set, modify;
        cbn [snd on_comp comp videoRef set_videoRef]; now rewrite V0).
  assert (M1 : movie (comp s1) = Some m) by (subst s1; exact M0).
  assert (P1 : isPlaying (comp s1) = true) by reflexivity.
  rewrite (togglePlay_pauses s1 _ m V1 M1 P1). cbn [snd comp].
  split; [reflexivity|]. split; [reflexivity|]. split; [reflexivity|].
  split.
  - unfold silent. cbn [world].
    destruct (audioSourceRef (comp s1)) as [node|] eqn:R.
    + apply stopped_world_silent. intros n Hn. apply T1 in Hn. congruence.
    + intros n Hn. apply T1 in Hn. congruence.
  - destruct F as [F1 F2]. split; [exact F1|]. split; [|exact F2].
    now rewrite M.
Qed.

Lemma play_then_pause_stops_everything_witness :
  let s := with_movie true in
  let s2 := exec (handle togglePlay)
              (exec (elapsed 2) (exec (handle togglePlay) s)) in
  isPlaying (comp s2) = false
  /\ videoRef (comp s2)
     = Some {| muted := false; paused := true; currentTime := 2 |}
  /\ audioSourceRef (comp s2) = None /\ silent s2.
Proof.
  intros s s2.
  assert (T : only_tracked_plays s).
  { apply silent_only_tracked. intros node.
    replace (sources (world s)) with (∅ : gmap nat NodeState)
      by (vm_compute; reflexivity).
    now rewrite lookup_empty. }
  destruct (play_then_pause_stops_everything s new_video
              (MovieData.mk (toString 1700000000000)
                 (lit "A cat cruises down the boardwalk, tail high.")
                 (lit "blob:0")
                 (Some {| numberOfChannels := 1; sampleRate := 24000;
                          frames := 48000 |})
                 Landscape) 2 eq_refl eq_refl eq_refl T)
    as (P & V & R & Q & _).
  split; [exact P|]. split; [exact V|]. split; [exact R | exact Q].
Defined.

Lemma handleVideoEnded_eq (s : System) :
  handle (fun _ => handleVideoEnded) s
  = (Ok tt,
     {| comp := set_audioSourceRef None (set_isPlaying false (comp s));
        world := match audioSourceRef (comp s) with
                 | Some node => stopped_world node (world s)
                 | None => world s
                 end |}).
Proof.
  unfold handle, handleVideoEnded, setIsPlaying.
  erewrite bind_ok by reflexivity. now rewrite stopAudio_eq.
Qed.

(** X5. When the video has run to its end, whatever [isPlaying] was:
    [isPlaying] is false, the audio handle is dropped and its node, if
    playing, is stopped, so that nothing plays if only the tracked node
    did; the movie, the status, the mute flag, the credential flag and
    the element are untouched. *)
Theorem video_ended_stops_audio (s : System) :
  let s' := exec (handle (fun _ => handleVideoEnded)) s in
  fst (handle (fun _ => handleVideoEnded) s) = Ok tt
  /\ isPlaying (comp s') = false
  /\ audioSourceRef (comp s') = None
  /\ (forall node, audioSourceRef (comp s) = Some node ->
                   sources (world s) !! node = Some Playing ->
                   sources (world s') !! node = Some Stopped)
  /\ (only_tracked_plays s -> silent s')
  /\ movie (comp s') = movie (comp s)
  /\ status (comp s') = status (comp s)
  /\ isMuted (comp s') = isMuted (comp s)
  /\ apiKeyReady (comp s') = apiKeyReady (comp s)
  /\ videoRef (comp s') = videoRef (comp s).
Proof.
  cbv zeta. unfold exec. rewrite handleVideoEnded_eq. cbn [fst snd comp world].
  repeat split.
  - intros node R Pl. rewrite R. unfold stopped_world. rewrite Pl.
    apply lookup_insert_eq.
  - intros T. unfold silent. cbn [world].
    destruct (audioSourceRef (comp s)) as [node|] eqn:R.
    + apply stopped_world_silent. intros n Hn. apply T in Hn. congruence.
    + intros n Hn. apply T in Hn. congruence.
Qed.

Lemma video_ended_stops_audio_witness :
  let s' := exec (handle (fun _ => handleVideoEnded)) (playing true) in
  isPlaying (comp (playing true)) = true
  /\ isPlaying (comp s') = false
  /\ sources (world s') !! 0 = Some Stopped.
Proof.
  intros s'.
  destruct (video_ended_stops_audio (playing true)) as (_ & P & _ & S & _).
  split; [reflexivity|]. split; [exact P|]. apply S; reflexivity.
Defined.

(** X6. The handlers of the element's own [pause] and [play] events
    (native controls): a pause while [isPlaying] clears it, drops the
    audio handle and stops its node; a play while not [isPlaying] sets it
    and, for a movie with audio, starts a tracked source; an event that
    finds [isPlaying] already in line changes nothing. *)
Theorem native_controls_sync (s : System) :
  let paused' := exec (handle handleVideoPause) s in
  let played' := exec (handle handleVideoPlay) s in
  (isPlaying (comp s) = true ->
   isPlaying (comp paused') = false
   /\ audioSourceRef (comp paused') = None
   /\ (forall node, audioSourceRef (comp s) = Some node ->
                    sources (world s) !! node = Some Playing ->
                    sources (world paused') !! node = Some Stopped)
   /\ played' = s)
  /\ (isPlaying (comp s) = false ->
      isPlaying (comp played') = true
      /\ (forall m buffer,
            movie (comp s) = Some m ->
            MovieData.audioBuffer m = Some buffer ->
            exists node, audioSourceRef (comp played') = Some node
                         /\ sources (world played') !! node = Some Playing)
      /\ paused' = s).
Proof.
  cbv zeta. unfold exec, handle, handleVideoPause, handleVideoPlay, setIsPlaying.
  split; intros P; rewrite P; cbn [negb].
  - erewrite bind_ok by reflexivity. rewrite stopAudio_eq. cbn [snd comp world].
    repeat split.
    intros node R Pl. unfold on_comp. cbn [comp world audioSourceRef set_isPlaying].
    rewrite R. unfold stopped_world. rewrite Pl. apply lookup_insert_eq.
  - erewrite bind_ok by reflexivity. split; [|split; [|reflexivity]].
    + destruct (movie (comp s)) as [[? ? ? [buffer|] ?]|] eqn:M.
      * erewrite playAudio_eq by (try exact M; reflexivity). reflexivity.
      * erewrite playAudio_nothing; [reflexivity|].
        right. eexists. split; [exact M | reflexivity].
      * erewrite playAudio_nothing; [reflexivity | now left].
    + intros m buffer M B.
      rewrite (playAudio_eq (comp s) _ m buffer M B). cbn [snd].
      eexists. split; [reflexivity|]. rewrite played_sources.
      apply lookup_insert_eq.
Qed.

Lemma native_controls_sync_witness :
  let s := playing true in
  isPlaying (comp s) = true
  /\ isPlaying (comp (exec (handle handleVideoPause) s)) = false
  /\ exec (handle handleVideoPlay) s = s.
Proof.
  intros s. destruct (native_controls_sync s) as [H _].
  destruct (H eq_refl) as (P & _ & _ & E).
  split; [reflexivity|]. split; [exact P | exact E].
Defined.

(** ** Invariants of the page *)

Lemma first_page_reachable : reachable first_page.
Proof. apply reachable_initial. reflexivity. Qed.

(** X7. In every state the page can reach at most one source node is
    playing, and [audioSourceRef] holds it: the component never leaves a
    sound running that it has lost track of. *)
Theorem at_most_one_source_plays (app : App) (n n' : nat) :
  reachable app ->
  sources (world (sys app)) !! n = Some Playing ->
  sources (world (sys app)) !! n' = Some Playing ->
  n = n' /\ audioSourceRef (comp (sys app)) = Some n.
Proof.
  intros R Hn Hn'. pose proof (reachable_invariant app R) as T.
  pose proof (T n Hn) as E. pose proof (T n' Hn') as E'.
  split; [congruence | exact E].
Qed.

Lemma at_most_one_source_plays_witness :
  exists app,
    run_trace watching_trace first_page = Some app
    /\ sources (world (sys app)) !! 0 = Some Playing
    /\ audioSourceRef (comp (sys app)) = Some 0.
Proof.
  destruct (run_trace watching_trace first_page) as [app|] eqn:E;
    [|vm_compute in E; discriminate E].
  exists app. split; [reflexivity|].
  assert (P : sources (world (sys app)) !! 0 = Some Playing).
  { vm_compute in E. injection E as <-. reflexivity. }
  split; [exact P|].
  exact (proj2 (at_most_one_source_plays app 0 0
                  (run_trace_reachable _ _ _ first_page_reachable E) P P)).
Defined.

(** *** The gain follows the mute flag *)

Lemma keeps_mix_in_world {A} (m : Eff World A) :
  (forall w, gains (snd (m w)) = gains w) -> keeps mix (in_world m).
Proof.
  intros H s. unfold in_world, mix. specialize (H (world s)).
  destruct (m (world s)). simpl in *. now rewrite H.
Qed.

Lemma keeps_mix_request {A} (m : Eff World A) :
  (forall w, gains (snd (m w)) = gains w) -> keeps mix (request m).
Proof.
  intros H s. unfold request, mix. specialize (H (world s)).
  destruct (m (world s)). simpl in *. now rewrite H.
Qed.

Lemma stop_gains (node : nat) (w : World) :
  gains (snd (AudioContext.stop node w)) = gains w.
Proof.
  unfold AudioContext.stop. eff_unfold.
  destruct (sources w !! node) as [[]|]; simpl; try reflexivity.
  now destruct (rejects_double_stop w).
Qed.

Lemma getAudioContext_gains (w : World) :
  gains (snd (geminiService.getAudioContext w)) = gains w.
Proof. now rewrite getAudioContext_eq. Qed.

Lemma generateScript_gains (b : Backend) (idea : jsstring) (w : World) :
  gains (snd (geminiService.generateScript b idea w)) = gains w.
Proof. now rewrite generateScript_eq. Qed.

Lemma filming_gains (r : Component) (b : Backend) (script : jsstring) (w : World) :
  gains (snd (filming r b script w)) = gains w.
Proof.
  rewrite filming_snd.
  destruct (generateSpeech_world b script (voice r)
              (snd (geminiService.generateVideo b (idea r) (aspectRatio r) w)))
    as [ctx ->].
  destruct (generateVideo_world b (idea r) (aspectRatio r) w) as [n ->].
  reflexivity.
Qed.

#[local] Hint Extern 1 (keeps mix (in_world _)) =>
  apply keeps_mix_in_world; intros ?;
  first [ reflexivity | apply stop_gains | apply getAudioContext_gains ] : keeps.
#[local] Hint Extern 1 (keeps mix (request _)) =>
  apply keeps_mix_request; intros ?;
  first [ apply generateScript_gains | apply filming_gains ] : keeps.

Lemma preserves_keeps_mix {A} (r : Component) (m : Eff System A) :
  keeps mix m -> preserves (gain_agrees_for r) m.
Proof.
  intros K s [G M]. specialize (K s). unfold mix in K.
  injection K as Kg Kr Km. unfold gain_agrees_for, gain_agrees.
  rewrite Kg, Kr, Km. split; assumption.
Qed.

Lemma played_gain_agrees (muted : bool) (s : System) :
  isMuted (comp s) = muted -> gain_agrees (played muted s).
Proof.
  intros M g. unfold played.
  cbn [comp world gainNodeRef isMuted set_gainNodeRef set_audioSourceRef
       set_audioContextRef gains emit set_sources set_gains set_next_node].
  intros [= <-]. rewrite M. apply lookup_insert_eq.
Qed.

Lemma playAudio_gain (r : Component) :
  preserves (gain_agrees_for r) (playAudio r).
Proof.
  intros s [G M].
  destruct (movie r) as [m|] eqn:Hm.
  - destruct (MovieData.audioBuffer m) as [buffer|] eqn:Hb.
    + rewrite (playAudio_eq r s m buffer Hm Hb). cbn [snd].
      split; [now apply played_gain_agrees | exact M].
    + rewrite playAudio_nothing; [now split|]. right. eauto.
  - rewrite playAudio_nothing; [now split | now left].
Qed.

#[local] Hint Resolve playAudio_gain : preserves.

(** Like [preserving], for the gain. *)
Ltac gain_preserving :=
  repeat first
    [ solve [auto with preserves]
    | solve [apply preserves_keeps_mix; keeps]
    | apply preserves_bind; [|intros ?]
    | apply preserves_try_catch; [|intros ?]
    | match goal with
      | |- preserves _ (match ?x with _ => _ end) => destruct x
      | |- preserves _ (if ?x then _ else _) => destruct x
      end ].

Section GainHandlers.

Variable r : Component.

Lemma togglePlay_gain : preserves (gain_agrees_for r) (togglePlay r).
Proof. unfold togglePlay. unfold_setters. gain_preserving. Qed.

Lemma handleVideoPlay_gain :
  preserves (gain_agrees_for r) (handleVideoPlay r).
Proof. unfold handleVideoPlay. unfold_setters. gain_preserving. Qed.

Lemma handleVideoPause_gain :
  preserves (gain_agrees_for r) (handleVideoPause r).
Proof. unfold handleVideoPause. unfold_setters. gain_preserving. Qed.

Lemma handleVideoEnded_gain : preserves (gain_agrees_for r) handleVideoEnded.
Proof. unfold handleVideoEnded. unfold_setters. gain_preserving. Qed.

Lemma video_call_gain (f : HTMLVideoElement -> HTMLVideoElement) :
  preserves (gain_agrees_for r) (video_set f).
Proof. unfold video_set. gain_preserving. Qed.

Lemma inputs_gain text a v :
  preserves (gain_agrees_for r) (setIdea text)
  /\ preserves (gain_agrees_for r) (setAspectRatio a)
  /\ preserves (gain_agrees_for r) (setVoice v).
Proof. unfold_setters. split; [|split]; gain_preserving. Qed.

Lemma handleSelectApiKey_gain (prompt : Outcome unit) :
  preserves (gain_agrees_for r) (handleSelectApiKey prompt).
Proof. unfold handleSelectApiKey. unfold_setters. gain_preserving. Qed.

Lemma checkApiKey_gain (ready : Outcome bool) :
  preserves (gain_agrees_for r) (checkApiKey ready).
Proof. unfold checkApiKey. unfold_setters. gain_preserving. Qed.

Lemma generateMovie_catch_gain (e : JsError) :
  preserves (gain_agrees_for r) (generateMovie_catch e).
Proof. unfold generateMovie_catch. unfold_setters. gain_preserving. Qed.

Hint Resolve generateMovie_catch_gain : preserves.

Lemma generateMovie_start_gain (c : Component) (b : Backend) :
  preserves (gain_agrees_for r) (generateMovie_start c b).
Proof.
  unfold generateMovie_start, generateMovie_reset, URL.revokeObjectURL.
  unfold_setters. gain_preserving.
Qed.

Lemma generateMovie_scripted_gain (c : Component) (b : Backend) promise :
  preserves (gain_agrees_for r) (generateMovie_scripted c b promise).
Proof. unfold generateMovie_scripted. unfold_setters. gain_preserving. Qed.

Lemma generateMovie_joined_gain (c : Component) (b : Backend) script join :
  preserves (gain_agrees_for r) (generateMovie_joined c b script join).
Proof.
  unfold generateMovie_joined. unfold_setters.
  apply preserves_try_catch; [|intros ?; gain_preserving].
  apply preserves_bind; [gain_preserving|]. intros [url buf]. gain_preserving.
Qed.

End GainHandlers.

Lemma gain_agrees_here (s : System) :
  gain_agrees s <-> gain_agrees_for (comp s) s.
Proof. unfold gain_agrees_for. tauto. Qed.

(** The mute button sets flag and gain together. *)
Lemma toggleMute_gain (s : System) :
  gain_agrees (snd (handle toggleMute s)).
Proof.
  destruct s as [c w].
  unfold handle, toggleMute, setIsMuted, video_set_muted, video_set,
    AudioContext.set_gain_value, gain_agrees.
  eff_unfold. simpl.
  destruct (gainNodeRef c) as [g|] eqn:G; destruct (videoRef c) as [v|] eqn:V;
    simpl; rewrite ?V; simpl; rewrite ?G; try discriminate.
  all: intros g' [= <-]; apply lookup_insert_eq.
Qed.

(** Every action keeps the gain in line with the mute flag. *)
Lemma step_gain_agrees (a : Action) (app app' : App) :
  gain_agrees (sys app) -> step a app = Some app' -> gain_agrees (sys app').
Proof.
  intros G. apply gain_agrees_here in G.
  set (r := comp (sys app)) in *.
  assert (back : forall s, gain_agrees_for r s -> gain_agrees s)
    by (now intros s []).
  destruct a; simpl.
  - destruct (check app) as [ready|]; [|discriminate].
    destruct (settled ready); [|discriminate]. intros [= <-].
    now apply back, checkApiKey_gain.
  - destruct (apiKeyReady _); [discriminate|]. intros [= <-].
    now apply back.
  - destruct (dialogs app !! i) as [prompt|]; [|discriminate].
    destruct (settled prompt); [|discriminate]. intros [= <-].
    now apply back, handleSelectApiKey_gain.
  - destruct (sources _ !! node) as [[]|]; try discriminate.
    intros [= <-]. destruct G as [G _]. unfold source_ended.
    now destruct (sources _ !! node) as [[]|].
  - intros [= <-]. apply back. exact (proj1 (inputs_gain r text Landscape Kore) _ G).
  - intros [= <-]. apply back. exact (proj1 (proj2 (inputs_gain r [] a Kore)) _ G).
  - intros [= <-]. apply back.
    exact (proj2 (proj2 (inputs_gain r [] Landscape v)) _ G).
  - destruct (generate_disabled _); [intros [= <-]; now apply back|].
    pose proof (generateMovie_start_gain r r b (sys app) G) as H.
    destruct (generateMovie_start _ b (sys app)) as [[[promise|]| |] s1];
      intros [= <-]; now apply back.
  - destruct (runs app !! i) as [[c b [promise|script join]]|]; try discriminate.
    destruct (settled promise); [|discriminate].
    pose proof (generateMovie_scripted_gain r c b promise (sys app) G) as H.
    destruct (generateMovie_scripted c b promise (sys app))
      as [[[[script join]|]| |] s1]; intros [= <-]; now apply back.
  - destruct (runs app !! i) as [[c b [promise|script join]]|]; try discriminate.
    destruct (settled join); [|discriminate]. intros [= <-].
    now apply back, generateMovie_joined_gain.
  - destruct (movie _); [|discriminate]. intros [= <-].
    now apply back, (togglePlay_gain r).
  - destruct (movie _); [|discriminate]. intros [= <-]. apply toggleMute_gain.
  - destruct (videoRef _); [|discriminate]. intros [= <-].
    now apply back, (handleVideoEnded_gain r).
  - destruct (videoRef _); [|discriminate]. intros [= <-]. apply back.
    unfold app_do, exec. cbn [sys].
    apply (preserves_bind (gain_agrees_for r)); [apply video_call_gain| |exact G].
    intros _ s1 [G1 M1]. unfold handle.
    assert (G1' : gain_agrees_for (comp s1) s1) by now split.
    destruct (handleVideoPause_gain (comp s1) s1 G1') as [H1 H2].
    split; [exact H1 | congruence].
  - destruct (videoRef _); [|discriminate]. intros [= <-]. apply back.
    unfold app_do, exec. cbn [sys].
    apply (preserves_bind (gain_agrees_for r)); [apply video_call_gain| |exact G].
    intros _ s1 [G1 M1]. unfold handle.
    assert (G1' : gain_agrees_for (comp s1) s1) by now split.
    destruct (handleVideoPlay_gain (comp s1) s1 G1') as [H1 H2].
    split; [exact H1 | congruence].
  - destruct (videoRef _); [|discriminate]. intros [= <-].
    now apply back, video_call_gain.
Qed.

(** X8. In every state the page can reach, the gain node the component
    tracks has the gain that goes with the mute flag: 0 when muted, 1
    when not.  What plays is silent exactly when the mute icon says so,
    whether the audio was started before or after the mute button was
    pressed. *)
Theorem gain_follows_mute (app : App) (g : nat) :
  reachable app ->
  gainNodeRef (comp (sys app)) = Some g ->
  gains (world (sys app)) !! g
  = Some (if isMuted (comp (sys app)) then 0 else 1)%N.
Proof.
  intros R. revert g. change (gain_agrees (sys app)).
  induction R as [ready w E | a app app' _ IH S].
  - intros g [=].
  - exact (step_gain_agrees a app app' IH S).
Qed.

(** Mute first, play then: the new gain node starts at 0. *)
Lemma gain_follows_mute_witness :
  exists app,
    run_trace [Check_settles; Type_idea cat_idea; Click_generate backend_ok;
               Script_settles 0; Join_settles 0; Click_mute; Click_play]
      first_page = Some app
    /\ isMuted (comp (sys app)) = true
    /\ gainNodeRef (comp (sys app)) = Some 1
    /\ gains (world (sys app)) !! 1 = Some 0%N.
Proof.
  destruct (run_trace _ first_page) as [app|] eqn:E;
    [|vm_compute in E; discriminate E].
  exists app. split; [reflexivity|].
  pose proof (run_trace_reachable _ _ _ first_page_reachable E) as R.
  assert (M : isMuted (comp (sys app)) = true).
  { vm_compute in E. injection E as <-. reflexivity. }
  assert (G : gainNodeRef (comp (sys app)) = Some 1).
  { vm_compute in E. injection E as <-. reflexivity. }
  split; [exact M|]. split; [exact G|].
  rewrite (gain_follows_mute app 1 R G), M. reflexivity.
Defined.

(** *** Status, movie and audio *)

Lemma keeps_face_in_world {A} (m : Eff World A) :
  (forall w, sources (snd (m w)) = sources w) -> keeps face (in_world m).
Proof.
  intros H s. unfold in_world, face, front. specialize (H (world s)).
  destruct (m (world s)). simpl in *. now rewrite H.
Qed.

Lemma keeps_front_in_world {A} (m : Eff World A) : keeps front (in_world m).
Proof. intros s. unfold in_world. now destruct (m (world s)). Qed.

#[local] Hint Resolve keeps_front_in_world : keeps.
#[local] Hint Extern 1 (keeps face (in_world _)) =>
  apply keeps_face_in_world; intros ?;
  first [ reflexivity | apply getAudioContext_sources ] : keeps.

Lemma page_ok_face (s s' : System) :
  face s' = face s -> page_ok s -> page_ok s'.
Proof.
  unfold face, front, page_ok, silent. intros [= Hs Hm Ha Hw].
  now rewrite Hs, Hm, Hw.
Qed.

Lemma page_ok_front (s s' : System) :
  front s' = front s ->
  (quiet_page s -> silent s') ->
  page_ok s -> page_ok s'.
Proof.
  unfold front, page_ok, quiet_page. intros [= Hs Hm Ha] Q (W & C & A & S).
  rewrite Hs, Hm. tauto.
Qed.

Lemma preserves_keeps_face {A} (m : Eff System A) :
  keeps face m -> preserves quiet_page m.
Proof.
  intros K s [M Q]. specialize (K s). unfold face, front in K.
  injection K as _ Km _ Kw. unfold quiet_page, silent. now rewrite Km, Kw.
Qed.

Lemma stopAudio_quiet : preserves quiet_page stopAudio.
Proof.
  intros s [M Q]. split.
  - now rewrite stopAudio_eq.
  - now apply stopAudio_silent, silent_only_tracked.
Qed.

#[local] Hint Resolve stopAudio_quiet : preserves.

Ltac quiet_preserving :=
  repeat first
    [ solve [auto with preserves]
    | solve [apply preserves_keeps_face; keeps]
    | apply preserves_bind; [|intros ?]
    | apply preserves_try_catch; [|intros ?]
    | match goal with
      | |- preserves _ (match ?x with _ => _ end) => destruct x
      | |- preserves _ (if ?x then _ else _) => destruct x
      end ].

Section QuietHandlers.

Lemma handleVideoEnded_quiet : preserves quiet_page handleVideoEnded.
Proof. unfold handleVideoEnded. unfold_setters. quiet_preserving. Qed.

Lemma handleVideoPause_quiet (r : Component) :
  preserves quiet_page (video_pause >> handleVideoPause r).
Proof. unfold handleVideoPause. unfold_setters. quiet_preserving. Qed.

Lemma handleVideoPlay_quiet (r : Component) :
  movie r = None -> preserves quiet_page (handleVideoPlay r).
Proof.
  intros M. unfold handleVideoPlay, playAudio. rewrite M.
  unfold_setters. quiet_preserving.
Qed.

Lemma video_play_quiet : preserves quiet_page video_play.
Proof. unfold_setters. quiet_preserving. Qed.

Lemma video_pause_quiet : preserves quiet_page video_pause.
Proof. unfold_setters. quiet_preserving. Qed.

Lemma handleVideoPauseR_quiet (r : Component) :
  preserves quiet_page (handleVideoPause r).
Proof. unfold handleVideoPause. unfold_setters. quiet_preserving. Qed.

End QuietHandlers.

Section FrontHandlers.

Lemma stopAudio_front : keeps front stopAudio.
Proof. unfold stopAudio. keeps. Qed.

Lemma playAudio_front (r : Component) : keeps front (playAudio r).
Proof. unfold playAudio. keeps. Qed.

Hint Resolve stopAudio_front playAudio_front : keeps.

Lemma togglePlay_front : keeps front (handle togglePlay).
Proof. unfold togglePlay. unfold_setters. keeps. Qed.

Lemma toggleMute_face : keeps face (handle toggleMute).
Proof.
  unfold toggleMute, AudioContext.set_gain_value. unfold_setters. keeps.
Qed.

Lemma handleVideoEnded_front : keeps front (handle (fun _ => handleVideoEnded)).
Proof. unfold handleVideoEnded. unfold_setters. keeps. Qed.

Lemma handleVideoPause_front : keeps front (video_pause >> handle handleVideoPause).
Proof. unfold handleVideoPause. unfold_setters. keeps. Qed.

Lemma handleVideoPlay_front : keeps front (video_play >> handle handleVideoPlay).
Proof. unfold handleVideoPlay. unfold_setters. keeps. Qed.

Lemma inputs_face text a v :
  keeps face (setIdea text) /\ keeps face (setAspectRatio a)
  /\ keeps face (setVoice v).
Proof. unfold_setters. split; [|split]; keeps. Qed.

Lemma generateMovie_scripted_audio (r : Component) (b : Backend) promise :
  keeps audio (generateMovie_scripted r b promise).
Proof.
  unfold generateMovie_scripted, generateMovie_catch. unfold_setters. keeps.
Qed.

End FrontHandlers.

Lemma source_ended_silent (node : nat) (s : System) :
  silent s -> silent {| comp := comp s; world := source_ended node (world s) |}.
Proof.
  intros Q n. unfold source_ended. cbn [world].
  destruct (sources (world s) !! node) as [[]|] eqn:E; try apply Q.
  now apply Q in E.
Qed.

Lemma written_status_error (msg : jsstring) : written_status (status_error msg).
Proof. unfold written_status. eauto 6. Qed.

Lemma page_ok_caught (e : JsError) (s : System) :
  page_ok s -> page_ok (on_comp (caught e) s).
Proof.
  intros (W & C & A & Q). unfold page_ok, silent. cbn [comp world on_comp].
  rewrite caught_movie. destruct (readable e) eqn:U.
  - destruct (caught_status e (comp s) U) as [msg ->].
    split; [apply written_status_error|]. split; [discriminate|].
    split; [exact A | exact Q].
  - rewrite (caught_unreadable e (comp s) U). now split.
Qed.

Lemma checkApiKey_eq (ready : Outcome bool) (s : System) :
  exec (checkApiKey ready) s
  = match ready with
    | Ok r => on_comp (set_apiKeyReady r) s
    | _ => s
    end.
Proof. now destruct ready as [[]| |]. Qed.

(** Every action keeps status, movie and audio together. *)
Lemma step_page_ok (a : Action) (app app' : App) :
  only_tracked_plays (sys app) -> page_ok (sys app) ->
  step a app = Some app' -> page_ok (sys app').
Proof.
  intros T O. destruct a; simpl.
  - (* the credential check answers *)
    destruct (check app) as [ready|]; [|discriminate].
    destruct (settled ready); [|discriminate]. intros [= <-]. cbn [sys].
    rewrite checkApiKey_eq. now destruct ready.
  - (* a click on the key button *)
    destruct (apiKeyReady _); [discriminate|]. now intros [= <-].
  - (* a key dialog closes *)
    destruct (dialogs app !! i) as [prompt|]; [|discriminate].
    destruct (settled prompt); [|discriminate]. intros [= <-]. cbn [sys].
    rewrite handleSelectApiKey_eq. destruct O as (W & C & A & Q).
    destruct prompt as [[]|e|]; [now split| |now split].
    split; [apply written_status_error|]. split; [discriminate|].
    split; [exact A | exact Q].
  - (* the audio has played to its end *)
    destruct (sources _ !! node) as [[]|]; try discriminate. intros [= <-].
    destruct O as (W & C & A & Q). unfold page_ok. cbn [sys comp].
    split; [exact W|]. split; [exact C|]. split; [exact A|].
    intros M. apply (source_ended_silent node (sys app)), Q, M.
  - intros [= <-]. refine (page_ok_face _ _ _ O).
    exact (proj1 (inputs_face text Landscape Kore) _).
  - intros [= <-]. refine (page_ok_face _ _ _ O).
    exact (proj1 (proj2 (inputs_face [] a Kore)) _).
  - intros [= <-]. refine (page_ok_face _ _ _ O).
    exact (proj2 (proj2 (inputs_face [] Landscape v)) _).
  - (* a click on the generate button *)
    destruct (generate_disabled (comp (sys app))) eqn:D; [now intros [= <-]|].
    destruct (truthy (trim (idea (comp (sys app))))) eqn:G.
    + pose proof (generateMovie_start_preserves (comp (sys app)) b (sys app) T) as T'.
      destruct (generateMovie_start_eq (comp (sys app)) b (sys app) G)
        as (promise & w & E).
      rewrite E in T' |- *. cbn [snd] in T'. intros [= <-]. cbn [sys].
      assert (M : movie (set_status status_script
                          (comp (reset_system (comp (sys app)) (sys app)))) = None)
        by exact (reset_clears_movie (sys app)).
      unfold page_ok. cbn [comp]. split; [unfold written_status; tauto|].
      split; [discriminate|].
      split; [intros m Hm; exfalso; cut (None = Some m);
              [discriminate | rewrite <- M; exact Hm]|].
      intros _ n Hn. apply T' in Hn. discriminate Hn.
    + rewrite generateMovie_start_blank by exact G. now intros [= <-].
  - (* the script promise settles *)
    destruct (runs app !! i) as [[r b [promise|script join]]|] eqn:L;
      try discriminate.
    destruct (settled promise) eqn:S; [|discriminate].
    pose proof (generateMovie_scripted_audio r b promise (sys app)) as A.
    destruct (generateMovie_scripted_eq r b (sys app) promise S)
      as [(script & join & w & E) | (e & E)]; rewrite E in A |- *.
    + intros [= <-]; cbn [sys].
      unfold audio in A. cbn [snd world] in A. injection A as A.
      destruct O as (W & C & B & Q).
      unfold page_ok, silent. cbn [comp world]. rewrite A.
      split; [unfold written_status; tauto|].
      split; [discriminate|]. split; [exact B | exact Q].
    + destruct (readable e); intros [= <-]; now apply page_ok_caught.
  - (* the join settles *)
    destruct (runs app !! i) as [[r b [promise|script join]]|] eqn:L;
      try discriminate.
    destruct (settled join) eqn:S; [|discriminate]. intros [= <-]. cbn [sys].
    destruct (generateMovie_joined_eq r b (sys app) script join S)
      as [(result & _ & ->) | (e & _ & ->)].
    + unfold page_ok. cbn [comp on_comp].
      split; [unfold written_status; tauto|].
      split; [discriminate|].
      split; [intros m [= <-]; discriminate | discriminate].
    + now apply page_ok_caught.
  - destruct (movie (comp (sys app))) eqn:M; [|discriminate]. intros [= <-].
    refine (page_ok_front _ _ (togglePlay_front _) _ O).
    intros [N _]. congruence.
  - destruct (movie _); [|discriminate]. intros [= <-].
    refine (page_ok_face _ _ _ O). apply toggleMute_face.
  - destruct (videoRef _); [|discriminate]. intros [= <-].
    refine (page_ok_front _ _ (handleVideoEnded_front _) _ O).
    intros Q. now apply (handleVideoEnded_quiet (sys app)).
  - destruct (videoRef _); [|discriminate]. intros [= <-].
    refine (page_ok_front _ _ (handleVideoPause_front _) _ O).
    intros Q. unfold app_do, exec. cbn [sys].
    eapply proj2, (preserves_bind quiet_page); [apply video_pause_quiet| |exact Q].
    intros _ s1 Q1. unfold handle. now apply handleVideoPauseR_quiet.
  - destruct (videoRef _); [|discriminate]. intros [= <-].
    refine (page_ok_front _ _ (handleVideoPlay_front _) _ O).
    intros Q. unfold app_do, exec. cbn [sys].
    eapply proj2, (preserves_bind quiet_page); [apply video_play_quiet| |exact Q].
    intros _ s1 Q1. unfold handle. apply handleVideoPlay_quiet; [|exact Q1].
    apply Q1.
  - destruct (videoRef _); [|discriminate]. intros [= <-].
    refine (page_ok_face _ _ _ O). unfold elapsed. unfold_setters. keeps.
Qed.

Lemma reachable_page_ok (app : App) : reachable app -> page_ok (sys app).
Proof.
  induction 1 as [ready w E | a app app' R IH S].
  - unfold initial_app, page_ok. cbn [sys comp].
    split; [unfold written_status; tauto|]. split; [discriminate|].
    split; [discriminate|].
    intros _ n. cbn [world]. rewrite E. now rewrite lookup_empty.
  - exact (step_page_ok a app app' (reachable_invariant app R) IH S).
Qed.

(** *** What the page shows in the states it can reach *)

(** X9. In every state the page can reach, the status has one of the
    shapes the component writes: the step is never ['audio'] (the type
    allows it, no code sets it), an error text is there exactly in the
    step ['error'], and a message is missing in the steps ['idle'] and
    ['error'] only. *)
Theorem status_shapes (app : App) :
  reachable app ->
  GenerationStatus.step (status (comp (sys app))) <> step_audio
  /\ (GenerationStatus.error (status (comp (sys app))) <> None
      <-> GenerationStatus.step (status (comp (sys app))) = step_error)
  /\ (GenerationStatus.message (status (comp (sys app))) = None
      <-> GenerationStatus.step (status (comp (sys app))) = step_idle
          \/ GenerationStatus.step (status (comp (sys app))) = step_error).
Proof.
  intros R. destruct (reachable_page_ok app R) as [W _].
  destruct W as [-> | [-> | [-> | [-> | [msg ->]]]]]; cbn.
  all: split; [discriminate|].
  all: split; split; try discriminate; try tauto; try (now intros N; elim N).
  all: intros [N|N]; discriminate N.
Qed.

Lemma status_shapes_witness :
  exists app,
    run_trace [Check_settles; Type_idea cat_idea;
               Click_generate (backend_script_fails (Error (lit "quota")));
               Script_settles 0] first_page = Some app
    /\ GenerationStatus.error (status (comp (sys app))) = Some (lit "quota")
    /\ GenerationStatus.step (status (comp (sys app))) = step_error.
Proof.
  destruct (run_trace _ first_page) as [app|] eqn:E;
    [|vm_compute in E; discriminate E].
  exists app. split; [reflexivity|].
  assert (P : GenerationStatus.error (status (comp (sys app)))
              = Some (lit "quota")).
  { vm_compute in E. injection E as <-. reflexivity. }
  split; [exact P|].
  apply (status_shapes app (run_trace_reachable _ _ _ first_page_reachable E)).
  rewrite P. discriminate.
Defined.

(** X10. In every state the page can reach, a status of ['complete']
    has its movie on screen: the step is written right after the movie,
    and whatever clears the movie writes another step at once.  (The
    converse does not hold: a key dialog that fails, or another run,
    can change the status under a movie.) *)
Theorem complete_shows_movie (app : App) :
  reachable app ->
  GenerationStatus.step (status (comp (sys app))) = step_complete ->
  exists m, movie (comp (sys app)) = Some m
            /\ MovieData.audioBuffer m <> None.
Proof.
  intros R C. destruct (reachable_page_ok app R) as (_ & M & A & _).
  specialize (M C).
  destruct (movie (comp (sys app))) as [m|] eqn:E; [|contradiction].
  exists m. split; [reflexivity|]. now apply A.
Qed.

Lemma complete_shows_movie_witness :
  exists app,
    run_trace watching_trace first_page = Some app
    /\ GenerationStatus.step (status (comp (sys app))) = step_complete
    /\ movie (comp (sys app)) <> None.
Proof.
  destruct (run_trace watching_trace first_page) as [app|] eqn:E;
    [|vm_compute in E; discriminate E].
  exists app. split; [reflexivity|].
  assert (P : GenerationStatus.step (status (comp (sys app))) = step_complete).
  { vm_compute in E. injection E as <-. reflexivity. }
  split; [exact P|].
  destruct (complete_shows_movie app
              (run_trace_reachable _ _ _ first_page_reachable E) P)
    as (m & -> & _).
  discriminate.
Defined.



(** ** The service, request by request *)

Lemma poll_done (answers : list (Outcome Operation)) (op op' : Operation) :
  geminiService.poll answers op = Ok op' ->
  done op' = true /\ (op' = op \/ In (Ok op') answers).
Proof.
  revert op. induction answers as [|[next|e|] answers IH]; intros op; simpl;
    destruct (done op) eqn:D; try discriminate;
    try (intros [= <-]; split; [exact D | now left]).
  intros H. destruct (IH next H) as [D' [-> | I]]; split; auto.
Qed.

Lemma poll_throw (answers : list (Outcome Operation)) (op : Operation)
    (e : JsError) :
  geminiService.poll answers op = Throw e -> In (Throw e) answers.
Proof.
  revert op. induction answers as [|[next|e'|] answers IH]; intros op; simpl;
    destruct (done op); try discriminate.
  - intros H. right. exact (IH next H).
  - intros [= ->]. now left.
Qed.

(** X12. The polling loop of [generateVideo] returns the first operation
    that is done: the operations before it, none of them done, are
    passed over, and what the service would have answered to later polls
    (a rejection, say) is never seen. *)
Theorem poll_first_finished (pending : list Operation) (op op' : Operation)
    (rest : list (Outcome Operation)) :
  Forall (fun o => done o = false) (op :: pending) ->
  done op' = true ->
  geminiService.poll (map Ok pending ++ Ok op' :: rest) op = Ok op'.
Proof.
  intros F D. revert op F.
  induction pending as [|next pending IH]; intros op F;
    inversion F as [|? ? D0 F']; subst; simpl; rewrite D0.
  - destruct rest; simpl; now rewrite D.
  - now apply IH.
Qed.

Lemma poll_first_finished_witness :
  let waiting := {| done := false; uri := None |} in
  let finished := {| done := true; uri := Some (lit "https://video.example/1") |} in
  geminiService.poll
    (map Ok [waiting; waiting] ++ Ok finished :: [Throw (Error (lit "503"))])
    waiting
  = Ok finished.
Proof.
  intros waiting finished.
  apply (poll_first_finished [waiting; waiting] waiting finished).
  - repeat constructor.
  - reflexivity.
Defined.

(** X13. A fulfilled [generateVideo] had a video to hand over: the first
    request was answered, the operation it ended on (the first answer or
    one of the polled ones) is done and carries a non-empty URI, the
    download from that URI with [&key=] and the API key appended was
    answered with [ok], its body could be read, and the value is an
    object URL not handed out before. *)
Theorem generateVideo_fulfilled (b : Backend) (idea : jsstring)
    (a : AspectRatio) (w : World) (url : jsstring) :
  fst (geminiService.generateVideo b idea a w) = Ok url ->
  exists op0 op videoUri res,
    generateVideos b idea a = Ok op0
    /\ (op = op0 \/ In (Ok op) (getVideosOperation b))
    /\ done op = true
    /\ uri op = Some videoUri /\ videoUri <> []
    /\ fetch b (videoUri ++ lit "&key=" ++ API_KEY b) = Ok res
    /\ ok res = true
    /\ blob res = Ok tt
    /\ url = lit "blob:" ++ toString (next_blob w)
    /\ next_blob (snd (geminiService.generateVideo b idea a w))
       = N.succ (next_blob w).
Proof.
  unfold geminiService.generateVideo, URL.createObjectURL. eff_unfold. simpl.
  destruct (generateVideos b idea a) as [op0| |]; simpl; try discriminate.
  destruct (geminiService.poll _ op0) as [op| |] eqn:P; simpl;
    try discriminate.
  apply poll_done in P as [D I].
  destruct (uri op) as [u|] eqn:U; simpl; try discriminate.
  destruct u as [|c u]; simpl; try discriminate.
  destruct (fetch b _) as [res| |] eqn:F; simpl; try discriminate.
  destruct (ok res) eqn:K; simpl; try discriminate.
  destruct (blob res) as [[]| |] eqn:B; simpl; try discriminate.
  intros [= <-]. exists op0, op, (c :: u), res.
  repeat split; auto; discriminate.
Qed.

Lemma generateVideo_fulfilled_witness :
  exists op,
    In (Ok op) (getVideosOperation backend_ok)
    /\ done op = true
    /\ geminiService.generateVideo backend_ok cat_idea Landscape
         (initial_world true)
       = (Ok (lit "blob:0"), snd (geminiService.generateVideo backend_ok
                                    cat_idea Landscape (initial_world true))).
Proof.
  destruct (generateVideo_fulfilled backend_ok cat_idea Landscape
              (initial_world true) (lit "blob:0") eq_refl)
    as (op0 & op & u & res & E0 & [E | I] & D & _).
  - exfalso. rewrite E in D. vm_compute in E0. injection E0 as <-.
    discriminate D.
  - exists op. split; [exact I|]. split; [exact D|]. reflexivity.
Defined.

(** X14. A [generateVideo] that is rejected or hangs has created no
    object URL: the browser has seen the request and nothing else.  Its
    own rejections are the two of the source, for a missing URI and for a
    refused download; any other is a rejection of the first request, of a
    poll, of the download or of the reading of its body. *)
Theorem generateVideo_unfulfilled (b : Backend) (idea : jsstring)
    (a : AspectRatio) (w : World) :
  is_ok (fst (geminiService.generateVideo b idea a w)) = false ->
  snd (geminiService.generateVideo b idea a w) = emit (GenerateVideo idea a) w
  /\ forall e,
       fst (geminiService.generateVideo b idea a w) = Throw e ->
       e = Error (lit "Failed to generate video URI.")
       \/ (exists res, ok res = false
                       /\ e = Error (lit "Failed to download video: "
                                       ++ statusText res))
       \/ generateVideos b idea a = Throw e
       \/ In (Throw e) (getVideosOperation b)
       \/ (exists u, fetch b (u ++ lit "&key=" ++ API_KEY b) = Throw e)
       \/ (exists u res, fetch b (u ++ lit "&key=" ++ API_KEY b) = Ok res
                         /\ ok res = true /\ blob res = Throw e).
Proof.
  unfold geminiService.generateVideo, URL.createObjectURL. eff_unfold. simpl.
  destruct (generateVideos b idea a) as [op0|e0|]; simpl;
    [|intros _; split; [reflexivity | intros e [= <-]; tauto]
     |intros _; split; [reflexivity | discriminate]].
  destruct (geminiService.poll _ op0) as [op|e1|] eqn:P; simpl;
    [|intros _; split; [reflexivity | intros e [= <-]]
     |intros _; split; [reflexivity | discriminate]].
  2: { apply poll_throw in P. tauto. }
  destruct (uri op) as [[|c u]|]; simpl;
    try (intros _; split; [reflexivity | intros e [= <-]; tauto]).
  destruct (fetch b _) as [res|e2|] eqn:F; simpl;
    [|intros _; split; [reflexivity | intros e [= <-]]
     |intros _; split; [reflexivity | discriminate]].
  2: { do 4 right. left. exists (c :: u). exact F. }
  destruct (ok res) eqn:K; simpl.
  - destruct (blob res) as [[]|e3|] eqn:B; simpl; [discriminate| |];
      intros _; (split; [reflexivity|]); [|discriminate].
    intros e [= <-]. do 5 right. exists (c :: u), res. auto.
  - intros _. split; [reflexivity|]. intros e [= <-].
    right. left. now exists res.
Qed.

Lemma generateVideo_unfulfilled_witness :
  let b := with_video (Ok {| done := true; uri := None |}) backend_ok in
  geminiService.generateVideo b cat_idea Landscape (initial_world true)
  = (Throw (Error (lit "Failed to generate video URI.")),
     emit (GenerateVideo cat_idea Landscape) (initial_world true)).
Proof.
  intros b.
  destruct (generateVideo_unfulfilled b cat_idea Landscape (initial_world true)
              eq_refl) as [E _].
  rewrite <- E. reflexivity.
Defined.

(** *** A refused download *)

Lemma includes_skip (p s m : jsstring) (n : N) :
  Forall (fun c => c <> n) p ->
  includes (p ++ s) (n :: m) = includes s (n :: m).
Proof.
  induction 1 as [|c p C _ IH]; [reflexivity|].
  change (includes ((c :: p) ++ s) (n :: m))
    with (startsWith (c :: p ++ s) (n :: m) || includes (p ++ s) (n :: m)).
  rewrite IH. cbn [startsWith].
  apply N.eqb_neq in C. now rewrite C.
Qed.

Lemma download_refused_marker (st : jsstring) :
  is_api_key_error (lit "Failed to download video: " ++ st)
  = is_api_key_error st.
Proof.
  unfold is_api_key_error.
  assert (F : forall n, n = 82%N \/ n = 52%N ->
              Forall (fun c => c <> n) (lit "Failed to download video: ")).
  { intros n [-> | ->]; vm_compute; repeat constructor;
      intros E; discriminate E. }
  change (lit "Requested entity was not found")
    with (82%N :: lit "equested entity was not found").
  change (lit "403") with (52%N :: lit "03").
  change (lit "401") with (52%N :: lit "01").
  rewrite !includes_skip by (apply F; tauto). reflexivity.
Qed.

(** X15. When a run fails because the download of the finished video was
    refused, what happens next depends on the [statusText] of the
    response alone: with a marker in it the key is asked for again and
    the credential flag withdrawn, without one the status shows
    "Failed to download video: " followed by the [statusText] and the
    credential flag stays.  The status code itself is not looked at. *)
Theorem refused_download_classified (b : Backend) (s : System) (st : jsstring) :
  truthy (trim (idea (comp s))) = true ->
  run_throws b s (download_refused st) ->
  status (comp (generated b s))
  = status_error (if is_api_key_error st then api_key_error
                  else lit "Failed to download video: " ++ st)
  /\ apiKeyReady (comp (generated b s))
     = (if is_api_key_error st then false else apiKeyReady (comp s)).
Proof.
  intros G H. destruct (generated_caught b s _ G H) as (c & -> & A).
  unfold caught, download_refused.
  assert (E : failure_text (Error (lit "Failed to download video: " ++ st))
              = lit "Failed to download video: " ++ st) by reflexivity.
  cbn [readable Error]. rewrite E, download_refused_marker.
  destruct (is_api_key_error st); split; try reflexivity. exact A.
Qed.

Lemma refused_download_classified_witness :
  let s := ready_system true cat_idea in
  status (comp (generated backend_download_forbidden s))
  = status_error (lit "Failed to download video: Forbidden")
  /\ apiKeyReady (comp (generated backend_download_forbidden s)) = true.
Proof.
  intros s.
  assert (G : truthy (trim (idea (comp s))) = true) by reflexivity.
  assert (R : run_throws backend_download_forbidden s
                (download_refused (lit "Forbidden"))) by reflexivity.
  exact (refused_download_classified backend_download_forbidden s
           (lit "Forbidden") G R).
Defined.

(** *** The voice-over *)

Lemma generateSpeech_eq (b : Backend) (text : jsstring) (v : VoiceName)
    (w : World) :
  geminiService.generateSpeech b text v w
  = match generateContent_audio b text v with
    | Ok (Some (c :: data)) =>
        (decodeAudioData b (c :: data) 24000 1,
         set_window_audioContext (Some Running)
           (emit (GenerateSpeech text v) w))
    | Ok _ =>
        (Throw (Error (lit "No audio data returned from TTS model.")),
         emit (GenerateSpeech text v) w)
    | Throw e => (Throw e, emit (GenerateSpeech text v) w)
    | Never => (Never, emit (GenerateSpeech text v) w)
    end.
Proof.
  unfold geminiService.generateSpeech, bind, modify, await, throw.
  destruct (generateContent_audio b text v) as [[[|c data]|]| |];
    cbn [truthy]; try reflexivity.
  rewrite getAudioContext_eq.
  now destruct (decodeAudioData b (c :: data) 24000 1).
Qed.

(** X16. A fulfilled [generateSpeech] got non-empty audio data from the
    model and the decoder's buffer for it, decoded at 24000 Hz on one
    channel; by then the shared audio context exists and is running.
    Besides that and the request itself the browser is as before. *)
Theorem generateSpeech_fulfilled (b : Backend) (text : jsstring)
    (v : VoiceName) (w : World) (buffer : AudioBuffer) :
  fst (geminiService.generateSpeech b text v w) = Ok buffer ->
  (exists data,
     generateContent_audio b text v = Ok (Some data) /\ data <> []
     /\ decodeAudioData b data 24000 1 = Ok buffer)
  /\ snd (geminiService.generateSpeech b text v w)
     = set_window_audioContext (Some Running) (emit (GenerateSpeech text v) w).
Proof.
  rewrite generateSpeech_eq.
  destruct (generateContent_audio b text v) as [[[|c data]|]| |];
    cbn [fst snd]; try discriminate.
  intros E. split; [|reflexivity].
  exists (c :: data). split; [reflexivity|]. split; [discriminate | exact E].
Qed.

Lemma generateSpeech_fulfilled_witness :
  snd (geminiService.generateSpeech backend_ok
         (lit "A cat cruises down the boardwalk, tail high.") Kore
         (initial_world true))
  = set_window_audioContext (Some Running)
      (emit (GenerateSpeech
               (lit "A cat cruises down the boardwalk, tail high.") Kore)
         (initial_world true)).
Proof.
  exact (proj2 (generateSpeech_fulfilled backend_ok
                  (lit "A cat cruises down the boardwalk, tail high.") Kore
                  (initial_world true)
                  {| numberOfChannels := 1; sampleRate := 24000;
                     frames := 48000 |}
                  eq_refl)).
Defined.

(** X17. When the speech model answers without audio data (none, or an
    empty string), [generateSpeech] throws its own error and has not
    touched the audio context: nothing is created or resumed for a
    voice-over that will not come. *)
Theorem generateSpeech_without_data (b : Backend) (text : jsstring)
    (v : VoiceName) (w : World) :
  generateContent_audio b text v = Ok None
  \/ generateContent_audio b text v = Ok (Some []) ->
  geminiService.generateSpeech b text v w
  = (Throw (Error (lit "No audio data returned from TTS model.")),
     emit (GenerateSpeech text v) w).
Proof.
  rewrite generateSpeech_eq. now intros [-> | ->].
Qed.

Lemma generateSpeech_without_data_witness :
  let b := with_audio (Ok (Some [])) backend_ok in
  window_audioContext
    (snd (geminiService.generateSpeech b cat_idea Kore (initial_world true)))
  = None.
Proof.
  intros b.
  rewrite (generateSpeech_without_data b cat_idea Kore (initial_world true));
    [reflexivity | now right].
Defined.

(** ** Leaving the page, saving the movie, choosing a key *)

Lemma unmount_eq (s : System) : unmount s = stopAudio s.
Proof.
  unfold unmount, cleanup. cbn [movie initial_component]. unfold bind, ret.
  now rewrite stopAudio_eq.
Qed.

Lemma stopAudio_new_events (s : System) :
  new_events s (snd (stopAudio s)) = audio_stops s.
Proof.
  unfold new_events, audio_stops. rewrite stopAudio_eq. cbn [snd world].
  destruct (audioSourceRef (comp s)) as [node|].
  - rewrite log_stopped_world. apply drop_app_length.
  - rewrite <- (app_nil_r (log (world s))) at 2. apply drop_app_length.
Qed.

(** X18. The cleanup that runs when the component leaves the page is the
    one of the first render (the effect has an empty dependency list),
    and in that render there was no movie: it stops the audio that is
    playing and drops the handle, and it revokes no object URL, whatever
    movie is on screen by then. *)
Theorem unmount_stops_audio_revokes_nothing (s : System) :
  only_tracked_plays s ->
  silent (exec unmount s)
  /\ audioSourceRef (comp (exec unmount s)) = None
  /\ new_events s (exec unmount s) = audio_stops s
  /\ revocations (new_events s (exec unmount s)) = []
  /\ movie (comp (exec unmount s)) = movie (comp s).
Proof.
  intros T. unfold exec. rewrite unmount_eq.
  split; [now apply stopAudio_silent|].
  rewrite stopAudio_new_events, revocations_audio_stops.
  rewrite stopAudio_eq. cbn [snd comp]. now repeat split.
Qed.

Lemma unmount_stops_audio_revokes_nothing_witness :
  let s := playing true in
  movie (comp s) <> None
  /\ silent (exec unmount s)
  /\ revocations (new_events s (exec unmount s)) = [].
Proof.
  intros s.
  assert (T : only_tracked_plays s).
  { apply (togglePlay_preserves (with_movie true)).
    apply silent_only_tracked. intros node.
    replace (sources (world (with_movie true))) with (∅ : gmap nat NodeState)
      by (vm_compute; reflexivity).
    now rewrite lookup_empty. }
  destruct (unmount_stops_audio_revokes_nothing s T) as (Q & _ & _ & R & _).
  split; [discriminate|]. split; [exact Q | exact R].
Defined.

Section Saving.

Variable Blob : Type.
Variable audioBufferToWav : AudioBuffer -> Blob.

(** X19. For a movie with audio, [downloadMovie] does three things, in
    this order: it clicks an anchor for the video, under the movie's own
    URL; it clicks an anchor for the audio, under an object URL made for
    the occasion; and then it revokes that URL, and no other.  The two
    files are named after the same movie id.  The component and the
    audio nodes are as before: saving does not interrupt playback. *)
Theorem downloadMovie_saves_both (r : Component) (d : Document)
    (m : MovieData.t) (buffer : AudioBuffer) :
  movie r = Some m ->
  MovieData.audioBuffer m = Some buffer ->
  let url := lit "blob:" ++ toString (next_blob (world (page d))) in
  let d' := exec (downloadMovie Blob audioBufferToWav r) d in
  fst (downloadMovie Blob audioBufferToWav r d) = Ok tt
  /\ timeline d'
     = timeline d
       ++ [Clicked
             {| href := MovieData.videoUrl m;
                download := lit "cinegen_video_" ++ MovieData.id m ++ lit ".mp4" |};
           Clicked
             {| href := url;
                download := lit "cinegen_audio_" ++ MovieData.id m ++ lit ".wav" |};
           Logged (RevokeObjectURL url)]
  /\ next_blob (world (page d')) = N.succ (next_blob (world (page d)))
  /\ comp (page d') = comp (page d)
  /\ sources (world (page d')) = sources (world (page d))
  /\ gains (world (page d')) = gains (world (page d)).
Proof.
  intros M B. cbv zeta. unfold exec, downloadMovie. rewrite M, B.
  unfold click_anchor, in_page, in_world, createObjectURL_of,
    URL.createObjectURL, URL.revokeObjectURL, bind, ret, gets, modify.
  cbn [fst snd page timeline comp world].
  cbn [log emit set_next_blob next_blob sources gains world].
  rewrite drop_all, drop_app_length. cbn [map]. rewrite app_nil_r.
  rewrite <- !app_assoc. cbn [app]. repeat split.
Qed.

End Saving.

Lemma downloadMovie_saves_both_witness :
  let d := {| page := with_movie true; timeline := [] |} in
  let d' := exec (downloadMovie unit (fun _ => tt) (comp (with_movie true))) d in
  timeline d'
  = [Clicked {| href := lit "blob:0";
                download := lit "cinegen_video_1700000000000.mp4" |};
     Clicked {| href := lit "blob:1";
                download := lit "cinegen_audio_1700000000000.wav" |};
     Logged (RevokeObjectURL (lit "blob:1"))]
  /\ comp (page d') = comp (with_movie true).
Proof.
  intros d d'.
  assert (M : movie (comp (with_movie true))
              = Some (MovieData.mk (toString 1700000000000)
                        (lit "A cat cruises down the boardwalk, tail high.")
                        (lit "blob:0")
                        (Some {| numberOfChannels := 1; sampleRate := 24000;
                                 frames := 48000 |})
                        Landscape))
    by (vm_compute; reflexivity).
  assert (N : next_blob (world (with_movie true)) = 1%N)
    by (vm_compute; reflexivity).
  destruct (downloadMovie_saves_both unit (fun _ => tt) (comp (with_movie true))
              d _ _ M eq_refl)
    as (_ & S & _ & C & _).
  fold d' in S, C. split; [|exact C].
  rewrite S. subst d. cbn [page timeline app]. rewrite N. reflexivity.
Defined.

(** X20. [handleSelectApiKey] takes the end of the key dialog at its
    word: when [openSelectKey()] returns, and also when there is no
    [window.aistudio] and so no dialog at all, the credential flag is set
    without a second check; when it throws, the status becomes the error
    "Failed to select API key" and the flag is left alone; while it hangs
    nothing changes.  Browser and movie are never touched. *)
Theorem handleSelectApiKey_outcome (aistudio : option (Outcome unit))
    (s : System) :
  let s' := exec (handleSelectApiKey (geminiService.promptForApiKey aistudio)) s in
  world s' = world s
  /\ movie (comp s') = movie (comp s)
  /\ match aistudio with
     | Some (Throw e) =>
         status (comp s') = status_error (lit "Failed to select API key")
         /\ apiKeyReady (comp s') = apiKeyReady (comp s)
     | Some Never => s' = s
     | _ =>
         apiKeyReady (comp s') = true /\ status (comp s') = status (comp s)
     end.
Proof.
  cbv zeta. rewrite handleSelectApiKey_eq.
  destruct aistudio as [[[]|e|]|]; cbn; repeat split.
Qed.

(** ** A run and the inputs *)

Section Unseen.

Variable f : System -> System.

Lemma unseen_ret {A} (a : A) : unseen f (ret a).
Proof. intros s. reflexivity. Qed.

Lemma unseen_throw {A} (e : JsError) : unseen f (throw e : Eff System A).
Proof. intros s. reflexivity. Qed.

Lemma unseen_await {A} (o : Outcome A) : unseen f (await o).
Proof. intros s. reflexivity. Qed.

Lemma unseen_bind {A B} (m : Eff System A) (k : A -> Eff System B) :
  unseen f m -> (forall a, unseen f (k a)) -> unseen f (bind m k).
Proof.
  intros Hm Hk s. unfold bind. rewrite Hm.
  destruct (m s) as [[a|e|] s1]; cbn [fst snd]; try reflexivity.
  apply Hk.
Qed.

Lemma unseen_try_catch {A} (m : Eff System A) (h : JsError -> Eff System A) :
  unseen f m -> (forall e, unseen f (h e)) -> unseen f (try_catch m h).
Proof.
  intros Hm Hh s. unfold try_catch. rewrite Hm.
  destruct (m s) as [[a|e|] s1]; cbn [fst snd]; try reflexivity.
  apply Hh.
Qed.

End Unseen.

Lemma unseen_request {A} (g : Component -> Component) (m : Eff World A) :
  unseen (on_comp g) (request m).
Proof.
  intros s. unfold request, on_comp. cbn [world comp].
  now destruct (m (world s)).
Qed.

Lemma unseen_modify (g h : Component -> Component) :
  (forall c, h (g c) = g (h c)) ->
  unseen (on_comp g) (modify (on_comp h)).
Proof.
  intros H s. unfold modify, on_comp. cbn [fst snd comp world].
  now rewrite H.
Qed.

Section Edits.

Variable g : Component -> Component.
Hypothesis edit : input_edit g.

Lemma edit_status (st : GenerationStatus.t) (c : Component) :
  set_status st (g c) = g (set_status st c).
Proof. destruct edit as [[? ->] | [[? ->] | [? ->]]]; reflexivity. Qed.

Lemma edit_apiKeyReady (r : bool) (c : Component) :
  set_apiKeyReady r (g c) = g (set_apiKeyReady r c).
Proof. destruct edit as [[? ->] | [[? ->] | [? ->]]]; reflexivity. Qed.

Lemma setStatus_unseen (st : GenerationStatus.t) :
  unseen (on_comp g) (setStatus st).
Proof. apply unseen_modify, edit_status. Qed.

Lemma setApiKeyReady_unseen (r : bool) :
  unseen (on_comp g) (setApiKeyReady r).
Proof. apply unseen_modify, edit_apiKeyReady. Qed.

Lemma setMovie_unseen (m : option MovieData.t) :
  unseen (on_comp g) (setMovie m).
Proof.
  apply unseen_modify. intros c.
  destruct edit as [[? ->] | [[? ->] | [? ->]]]; reflexivity.
Qed.

Lemma generateMovie_catch_unseen (e : JsError) :
  unseen (on_comp g) (generateMovie_catch e).
Proof.
  unfold generateMovie_catch.
  apply unseen_bind; [apply unseen_await | intros [msg|]];
    [|apply unseen_throw].
  destruct (is_api_key_error msg);
    [apply unseen_bind; [|intros _] |];
    auto using setStatus_unseen, setApiKeyReady_unseen.
Qed.

(** The continuations of a run read the inputs from their render, not
    from the state. *)
Lemma generateMovie_scripted_unseen (r : Component) (b : Backend) promise :
  unseen (on_comp g) (generateMovie_scripted r b promise).
Proof.
  unfold generateMovie_scripted.
  apply unseen_try_catch.
  - apply unseen_bind; [apply unseen_await | intros script].
    apply unseen_bind; [apply setStatus_unseen | intros _].
    apply unseen_bind; [apply unseen_request | intros join].
    apply unseen_ret.
  - intros e. apply unseen_bind; [apply generateMovie_catch_unseen | intros _].
    apply unseen_ret.
Qed.

Lemma generateMovie_joined_unseen (r : Component) (b : Backend) script join :
  unseen (on_comp g) (generateMovie_joined r b script join).
Proof.
  unfold generateMovie_joined.
  apply unseen_try_catch; [|apply generateMovie_catch_unseen].
  apply unseen_bind; [apply unseen_await | intros [videoUrl audioBuffer]].
  apply unseen_bind; [apply setMovie_unseen | intros _].
  apply setStatus_unseen.
Qed.

End Edits.

Lemma step_input (a : Action) :
  is_input a = true ->
  exists g, input_edit g
            /\ forall app, step a app
                           = Some {| sys := on_comp g (sys app);
                                     runs := runs app;
                                     check := check app;
                                     dialogs := dialogs app |}.
Proof.
  destruct a; try discriminate; intros _.
  - exists (set_idea text). split; [left; eauto | reflexivity].
  - exists (set_aspectRatio a). split; [right; left; eauto | reflexivity].
  - exists (set_voice v). split; [right; right; eauto | reflexivity].
Qed.

(** X21. A run of the pipeline works on the inputs of the render in which
    the button was clicked.  Editing the idea, the aspect ratio or the
    voice while the run waits changes nothing for it: whether the edit
    comes before or after the script or the filming settles, the page
    ends in the same state, with the same requests made and the same
    movie or error shown. *)
Theorem edits_do_not_reach_a_run (a_in a_run : Action) (app : App) :
  is_input a_in = true ->
  is_settling a_run = true ->
  step a_in app ≫= step a_run = step a_run app ≫= step a_in.
Proof.
  intros I S. destruct (step_input a_in I) as (g & G & E).
  rewrite E. cbn [mbind option_bind].
  remember (step a_in) as edit eqn:K. clear K I.
  destruct a_run; try discriminate S; unfold step; cbn [runs sys].
  - destruct (runs app !! i) as [[r b [promise|script join]]|];
      try reflexivity.
    destruct (settled promise); [|reflexivity].
    rewrite (generateMovie_scripted_unseen g G r b promise (sys app)).
    destruct (generateMovie_scripted r b promise (sys app))
      as [[[[script join]|]|e|] s']; cbn [fst snd mbind option_bind];
      now rewrite E.
  - destruct (runs app !! i) as [[r b [promise|script join]]|];
      try reflexivity.
    destruct (settled join); [|reflexivity].
    cbn [mbind option_bind]. rewrite E. cbn [sys runs]. unfold exec.
    now rewrite (generateMovie_joined_unseen g G r b script join (sys app)).
Qed.

Lemma edits_do_not_reach_a_run_witness :
  exists app app',
    run_trace scripting_trace first_page = Some app
    /\ step (Script_settles 0) app ≫= step (Type_idea (lit "a dog")) = Some app'
    /\ step (Type_idea (lit "a dog")) app ≫= step (Script_settles 0) = Some app'.
Proof.
  destruct (run_trace scripting_trace first_page) as [app|] eqn:E;
    [|vm_compute in E; discriminate E].
  destruct (step (Script_settles 0) app ≫= step (Type_idea (lit "a dog")))
    as [app'|] eqn:E'.
  - exists app, app'. split; [reflexivity|]. split; [exact E'|].
    rewrite <- E'.
    now apply (edits_do_not_reach_a_run (Type_idea (lit "a dog"))
                 (Script_settles 0) app).
  - exfalso. vm_compute in E. injection E as <-. vm_compute in E'.
    discriminate E'.
Defined.
